(** * Eigenvalues of a density matrix through the Faddeev-LeVerrier recursion

    A shallow embedding of the notebook [tutorial.ipynb]: the three code cells
    [get_traces], [c_n_m] and [compute_coefs], and the call
    [Polynomial(coefs[::-1]).roots()] that consumes their result.

    The notebook computes with numpy scalars (binary64 floats, or pairs of
    them for complex input).  The embedding is written once over an interface
    [Scalar] that lists exactly the operations the code applies to its
    numbers, and is then run at the binary64 floats of the kernel, which give
    the values the notebook really prints, and at the real and the complex
    numbers, which give the exact-arithmetic reading of the recursion.

    [c_n_m] and [compute_coefs] are compiled by numba: their reads of the
    trace vector are loads without bounds check, modelled by [load] over a
    [Memory] that holds what lies around the array.  [get_traces] is
    interpreted, and works on a numpy array, modelled with its shape. *)

From Stdlib Require Import ZArith List Lia Bool.
From Stdlib Require Import Floats Uint63.
From Stdlib Require Import QArith Qreals Reals Lra Ring.
Import ListNotations.

Local Open Scope Z_scope.

Set Warnings "-inexact-float".

(** ** Exceptions and results *)

(** What a call can raise.  [IndexError] is the out-of-range read of a Python
    list, [LinAlgError] what [np.linalg.matrix_power] raises on a matrix that is not
    square.  [OutOfFuel] is not a Python exception: it marks the exhaustion of
    the recursion budget of [c_n_m_fuel], and [c_n_m_fuel_enough] shows that
    the budget [c_n_m] hands out is never exhausted. *)
Inductive exn : Set :=
| IndexError
| LinAlgError
| OutOfFuel.

Inductive result (A : Type) : Type :=
| Ok (a : A)
| Raise (e : exn).

Arguments Ok {A} a.
Arguments Raise {A} e.

Definition bind {A B : Type} (r : result A) (k : A -> result B) : result B :=
  match r with
  | Ok a => k a
  | Raise e => Raise e
  end.

Notation "x <- r ;; k" := (bind r (fun x => k))
  (at level 61, r at next level, right associativity).

(** A [for] loop over a list of values, threading the loop-carried state and
    stopping at the first exception. *)
Fixpoint for_each {A S : Type} (xs : list A) (body : A -> S -> result S) (s : S)
  : result S :=
  match xs with
  | [] => Ok s
  | x :: xs' => s' <- body x s ;; for_each xs' body s'
  end.

(** Python's [range(lo, hi)]. *)
Definition py_range (lo hi : Z) : list Z :=
  map (fun i => lo + Z.of_nat i) (seq 0 (Z.to_nat (hi - lo))).

(** Python's [v[i]] on a list: a negative index counts from the end, an index
    outside [-len, len) raises [IndexError].  This is the read of interpreted
    code; the reads of the compiled functions are [load] below. *)
Definition getitem {A : Type} (v : list A) (i : Z) : result A :=
  let len := Z.of_nat (length v) in
  let j := if i <? 0 then i + len else i in
  if (j <? 0) || (len <=? j) then Raise IndexError
  else match nth_error v (Z.to_nat j) with
       | Some a => Ok a
       | None => Raise IndexError
       end.

(** ** Compiled code and the memory around an array *)

(** [c_n_m] and [compute_coefs] carry the decorator [@jit(nopython=True)]:
    numba compiles them, and in compiled code the read [v[i]] of an array is a
    load without bounds check.  A negative index is wrapped once, as in
    Python; the load then returns the entry when the index falls inside the
    array, and otherwise whatever the memory holds at that place, without
    raising anything.  [outside j] is the scalar the memory holds at the place
    of index [j] of the array being read, for [j] outside the array.  The
    program does not determine it: the statements on the compiled functions
    hold for every [Memory]. *)
Class Memory (C : Type) : Type := { outside : Z -> C }.

Definition load {C : Type} {M : Memory C} (v : list C) (i : Z) : C :=
  let len := Z.of_nat (length v) in
  let j := if i <? 0 then i + len else i in
  if j <? 0 then outside j else nth (Z.to_nat j) v (outside j).

(** A memory that holds [x] at every place. *)
Definition holding {C : Type} (x : C) : Memory C := {| outside := fun _ => x |}.

(** ** The numbers of the notebook *)

(** The operations the code applies to scalars: the literal [1.], the
    conversion of a Python [int] (the literal [0] that starts [suma], the
    operands of [-1/m]), [+], [*] and [/].  [s_neg] is not used by the code;
    it is there to state what the results are equal to. *)
Class Scalar (C : Type) : Type := {
  s_one : C;
  s_of_int : Z -> C;
  s_add : C -> C -> C;
  s_mul : C -> C -> C;
  s_div : C -> C -> C;
  s_neg : C -> C
}.

(** binary64, the type of a Python [float].  The conversion of an [int] is
    exact below 2^53 in absolute value, which covers every value the code
    converts (0, -1 and the index [m]). *)
Definition f64_of_int (z : Z) : float :=
  match z with
  | Z0 => PrimFloat.of_uint63 0%uint63
  | Zpos _ => PrimFloat.of_uint63 (Uint63.of_Z z)
  | Zneg p => PrimFloat.opp (PrimFloat.of_uint63 (Uint63.of_Z (Zpos p)))
  end.

#[export] Instance Scalar_f64 : Scalar float := {
  s_one := 1%float;
  s_of_int := f64_of_int;
  s_add := PrimFloat.add;
  s_mul := PrimFloat.mul;
  s_div := PrimFloat.div;
  s_neg := PrimFloat.opp
}.

(** The real numbers: the code read in exact arithmetic. *)
#[export] Instance Scalar_R : Scalar R := {
  s_one := 1%R;
  s_of_int := IZR;
  s_add := Rplus;
  s_mul := Rmult;
  s_div := Rdiv;
  s_neg := Ropp
}.

(** ** The Faddeev-LeVerrier recursion *)

Section FaddeevLeVerrier.

Context {C : Type} `{Scalar C} {M : Memory C}.

(** One pass of the loop of [c_n_m]:
    [suma = suma + c_n_m(n, m-k, vec_of_traces) * vec_of_traces[k-1]],
    the recursive call being given as [rec]. *)
Definition c_n_m_step (rec : Z -> result C) (m : Z) (vec_of_traces : list C)
           (k : Z) (suma : C) : result C :=
  c <- rec (m - k) ;;
  Ok (s_add suma (s_mul c (load vec_of_traces (k - 1)))).

(** [c_n_m], with a bound [fuel] on the depth of the recursion. *)
Fixpoint c_n_m_fuel (fuel : nat) (n m : Z) (vec_of_traces : list C)
  : result C :=
  match fuel with
  | O => Raise OutOfFuel
  | S fuel' =>
      let suma := s_of_int 0 in
      if m =? 0 then Ok s_one
      else
        suma <- for_each (py_range 1 (m + 1))
                  (c_n_m_step (fun j => c_n_m_fuel fuel' n j vec_of_traces)
                     m vec_of_traces)
                  suma ;;
        Ok (s_mul suma (s_div (s_of_int (-1)) (s_of_int m)))
  end.

(** [c_n_m(n, m, vec_of_traces)]: a call at [m] nests at most [m] further
    calls, so the depth [m + 1] is enough. *)
Definition c_n_m (n m : Z) (vec_of_traces : list C) : result C :=
  c_n_m_fuel (S (Z.to_nat m)) n m vec_of_traces.

(** [compute_coefs(n, vec_of_traces)]. *)
Definition compute_coefs (n : Z) (vec_of_traces : list C) : result (list C) :=
  let c_list := [s_one] in
  for_each (py_range 1 (n + 1))
    (fun m c_list => c <- c_n_m n m vec_of_traces ;; Ok (c_list ++ [c]))
    c_list.

(** The value of a call that returned; [coef n vec m] names the value of
    [c_n_m(n, m, vec)] in the statements below. *)
Definition value_of (r : result C) : C :=
  match r with
  | Ok c => c
  | Raise _ => s_of_int 0
  end.

Definition coef (n : Z) (vec_of_traces : list C) (m : Z) : C :=
  value_of (c_n_m n m vec_of_traces).

(** The array [v] followed by what the memory holds behind it, up to the
    index [m - 1]: the [m] scalars a loop that loads [v[0]], ..., [v[m-1]]
    gets.  It is [v] itself when [v] has [m] entries or more. *)
Definition seen_upto (m : Z) (v : list C) : list C :=
  v ++ map outside (py_range (Z.of_nat (length v)) m).

(** *** The calls the recursion makes *)

(** The same evaluation, keeping a log of the argument [m] of every call of
    [c_n_m] that is entered, in the order of entry.  [c_n_m_log_value] shows
    that the value is the one of [c_n_m_fuel]. *)
Fixpoint for_each_log {A S : Type} (xs : list A)
         (body : A -> S -> result S * list Z) (s : S) : result S * list Z :=
  match xs with
  | [] => (Ok s, [])
  | x :: xs' =>
      match body x s with
      | (Ok s', l) =>
          let (r, l') := for_each_log xs' body s' in (r, l ++ l')
      | (Raise e, l) => (Raise e, l)
      end
  end.

Fixpoint c_n_m_log (fuel : nat) (n m : Z) (vec_of_traces : list C)
  : result C * list Z :=
  match fuel with
  | O => (Raise OutOfFuel, [])
  | S fuel' =>
      let suma := s_of_int 0 in
      if m =? 0 then (Ok s_one, [m])
      else
        let (r, l) :=
          for_each_log (py_range 1 (m + 1))
            (fun k suma =>
               let (rc, lc) := c_n_m_log fuel' n (m - k) vec_of_traces in
               (c <- rc ;;
                Ok (s_add suma (s_mul c (load vec_of_traces (k - 1)))), lc))
            suma in
        (suma <- r ;; Ok (s_mul suma (s_div (s_of_int (-1)) (s_of_int m))),
         m :: l)
  end.

Definition compute_coefs_log (n : Z) (vec_of_traces : list C)
  : result (list C) * list Z :=
  for_each_log (py_range 1 (n + 1))
    (fun m c_list =>
       let (rc, lc) := c_n_m_log (S (Z.to_nat m)) n m vec_of_traces in
       (c <- rc ;; Ok (c_list ++ [c]), lc))
    [s_one].

(** *** The recursion as the specification writes it *)

(** The sum of [f k] for [k] from [lo] to [hi], both included, added up in
    increasing order of [k]. *)
Definition Sigma (lo hi : Z) (f : Z -> C) : C :=
  fold_left s_add (map f (py_range lo (hi + 1))) (s_of_int 0).

(** [traces[k-1]] in the formula of the specification. *)
Definition trace_at (traces : list C) (k : Z) : C :=
  nth (Z.to_nat (k - 1)) traces (s_of_int 0).

(** One pass of the loop of [c_n_m] when the call returns and the index is
    inside the array. *)
Definition term (n m : Z) (vec : list C) (suma : C) (k : Z) : C :=
  s_add suma (s_mul (coef n vec (m - k)) (trace_at vec k)).

(** A function [auxiliary] obeys the recursion up to [d]:
    [auxiliary(0) = 1] and, for [1 <= m <= d],
    [auxiliary(m) = -(1/m) * sum for k = 1..m of auxiliary(m-k) * traces[k-1]]. *)
Definition is_auxiliary (d : Z) (traces : list C) (auxiliary : Z -> C) : Prop :=
  auxiliary 0 = s_one /\
  forall m, 1 <= m <= d ->
    auxiliary m =
    s_mul (s_neg (s_div s_one (s_of_int m)))
          (Sigma 1 m (fun k => s_mul (auxiliary (m - k)) (trace_at traces k))).

(** Following the words of the specification: the cached evaluation it asks
    for, which the notebook does not have.  A table holds [auxiliary(0)] to
    [auxiliary(m-1)]; entry [m] is computed by the loop of [c_n_m] with the
    recursive call replaced by a read of the table, and appended. *)
Definition compute_coefs_table (d : Z) (traces : list C) : result (list C) :=
  for_each (py_range 1 (d + 1))
    (fun m table =>
       suma <- for_each (py_range 1 (m + 1))
                 (c_n_m_step (getitem table) m traces) (s_of_int 0) ;;
       Ok (table ++ [s_mul suma (s_div (s_of_int (-1)) (s_of_int m))]))
    [s_one].

(** The table holds the values of the calls below [j]: the invariant of the
    loop of [compute_coefs_table]. *)
Definition table_upto (n : Z) (vec : list C) (j : Z) (table : list C) : Prop :=
  Z.of_nat (length table) = j /\
  forall i, 0 <= i < j -> getitem table i = c_n_m n i vec.

(** ** The traces of the powers *)

(** A two-dimensional numpy array: the list of its rows, and the number of
    its columns [rho.shape[1]], which the rows do not tell when there are none
    (an array of shape (0, n)).  In an array every row has [shape1] entries;
    [is_square] is false of a value in which one has not. *)
Record matrix : Type := Matrix { rows : list (list C); shape1 : Z }.

(** [rho.shape[0]]. *)
Definition shape0 (rho : matrix) : Z := Z.of_nat (length (rows rho)).

Definition is_square (rho : matrix) : bool :=
  (shape0 rho =? shape1 rho) &&
  forallb (fun row => Z.of_nat (length row) =? shape1 rho) (rows rho).

(** Modelled from the spec: [np.trace] and [np.linalg.matrix_power] are numpy's,
    not the repository's.  The trace is the sum of the diagonal, the power is
    repeated multiplication (the reference the specification names), and
    [matrix_power] refuses a matrix that is not square.  The code calls it with
    the exponents [i+1 >= 1] only, so the exponent is a [positive]. *)
Fixpoint diagonal_from (i : nat) (r : list (list C)) : list C :=
  match r with
  | [] => []
  | row :: rest =>
      match nth_error row i with
      | Some x => x :: diagonal_from (S i) rest
      | None => []
      end
  end.

Definition trace_rows (r : list (list C)) : C :=
  match diagonal_from 0 r with
  | [] => s_of_int 0
  | x :: xs => fold_left s_add xs x
  end.

Definition np_trace (rho : matrix) : C := trace_rows (rows rho).

Definition dot (u v : list C) : C :=
  fold_left s_add (map (fun p => s_mul (fst p) (snd p)) (combine u v)) (s_of_int 0).

Definition column (b : list (list C)) (j : nat) : list C :=
  map (fun row => nth j row (s_of_int 0)) b.

Definition matmul (a b : list (list C)) : list (list C) :=
  map (fun row => map (fun j => dot row (column b j)) (seq 0 (length (hd [] b)))) a.

Fixpoint matrix_pow (a : list (list C)) (k : nat) : list (list C) :=
  match k with
  | O => a
  | S k' => matmul (matrix_pow a k') a
  end.

(** The square matrix [a] multiplied [k] times by itself: [a] to the power
    [k + 1]. *)
Definition powered (a : matrix) (k : nat) : matrix :=
  Matrix (matrix_pow (rows a) k) (shape1 a).

Definition np_matrix_power (a : matrix) (p : positive) : result matrix :=
  if is_square a then Ok (powered a (Nat.pred (Pos.to_nat p)))
  else Raise LinAlgError.

(** [get_traces(rho)]. *)
Definition get_traces (rho : matrix) : result (list C) :=
  let traces := [] in
  for_each (py_range 0 (shape0 rho))
    (fun i traces =>
       p <- np_matrix_power rho (Z.to_pos (i + 1)) ;;
       Ok (traces ++ [np_trace p]))
    traces.

(** The diagonal matrix with the entries [lams] on its diagonal. *)
Definition diag_rows (lams : list C) : list (list C) :=
  map (fun i =>
         map (fun j => if Nat.eqb i j then nth i lams (s_of_int 0) else s_of_int 0)
             (seq 0 (length lams)))
      (seq 0 (length lams)).

Definition diag (lams : list C) : matrix :=
  Matrix (diag_rows lams) (Z.of_nat (length lams)).

Definition mul_lists (u v : list C) : list C :=
  map (fun p => s_mul (fst p) (snd p)) (combine u v).

(** ** The polynomial handed to the solver *)

(** [Polynomial(coef)] of numpy: [coef] lists the coefficients from the constant
    term up, and the value at [x] is the sum of [coef[i] * x**i]. *)
Definition poly_val (coef : list C) (x : C) : C :=
  fold_right (fun c acc => s_add c (s_mul x acc)) (s_of_int 0) coef.

(** [poly = Polynomial(coefs[::-1])]. *)
Definition poly (coefs : list C) : list C := rev coefs.

(** Modelled from the spec: [poly.roots()] is numpy's solver, not the
    repository's; the specification asks of it the roots of the polynomial.  A
    root is a scalar at which the polynomial vanishes. *)
Definition is_root (coef : list C) (x : C) : Prop :=
  poly_val coef x = s_of_int 0.

(** ** Eigenvalues and the characteristic polynomial *)

Fixpoint s_pow (x : C) (k : nat) : C :=
  match k with
  | O => s_one
  | S k' => s_mul x (s_pow x k')
  end.

(** The sum of the [k]-th powers of the eigenvalues [lams]: the trace of the
    [k]-th power of a matrix that has these eigenvalues. *)
Definition power_sum (lams : list C) (k : nat) : C :=
  fold_right (fun lam acc => s_add (s_pow lam k) acc) (s_of_int 0) lams.

(** The trace vector of a matrix of side [d] with the eigenvalues [lams]:
    entry [i] is the power sum of exponent [i+1]. *)
Definition eigen_traces (lams : list C) : list C :=
  map (fun i => power_sum lams (S i)) (seq 0 (length lams)).

Definition add_lists (u v : list C) : list C :=
  map (fun p => s_add (fst p) (snd p)) (combine u v).

(** The coefficients, highest degree first, of the product of the factors
    [x - lam] for [lam] in [lams]: multiplying [q] by [x - lam] adds [q]
    shifted up by one degree and [- lam * q]. *)
Fixpoint char_coefs (lams : list C) : list C :=
  match lams with
  | [] => [s_one]
  | lam :: rest =>
      let q := char_coefs rest in
      add_lists (q ++ [s_of_int 0])
                (s_of_int 0 :: map (fun c => s_neg (s_mul lam c)) q)
  end.

(** Entry [j] of [char_coefs], 0 beyond the degree. *)
Definition char_coef (lams : list C) (j : nat) : C :=
  nth j (char_coefs lams) (s_of_int 0).

(** The product of the factors [x - lam]. *)
Definition product_form (lams : list C) (x : C) : C :=
  fold_right (fun lam acc => s_mul (s_add x (s_neg lam)) acc) s_one lams.

(** The sum of [f (m-k) * g k] for [k] from 1 to [m]. *)
Fixpoint conv (f g : nat -> C) (m : nat) : C :=
  match m with
  | O => s_of_int 0
  | S m' => s_add (s_mul (f O) (g m)) (conv (fun j => f (S j)) g m')
  end.

(** [f] moved up by one place, with 0 in the first. *)
Definition prev (f : nat -> C) (j : nat) : C :=
  match j with
  | O => s_of_int 0
  | S j' => f j'
  end.

End FaddeevLeVerrier.

Arguments matrix C : clear implicits.
Arguments Matrix {C} rows shape1.
Arguments rows {C} rho : rename.
Arguments shape1 {C} rho : rename.

(** ** Exact arithmetic *)

(** The two laws under which the code of [c_n_m], which multiplies the sum by
    [-1/m] on the right, computes what the specification writes as
    [-(1/m)] times the sum.  Both hold of binary64, rounding included, and in
    every field. *)
Class RecursionLaws (C : Type) `{Scalar C} : Prop := {
  r_mul_comm : forall x y : C, s_mul x y = s_mul y x;
  r_div_neg1 : forall y : C, s_div (s_of_int (-1)) y = s_neg (s_div s_one y)
}.

(** The laws the statements in exact arithmetic rely on: a commutative ring in
    which the integers other than 0 can be divided by, as in a field of
    characteristic 0.  They hold of the real and of the complex numbers; of
    binary64 they hold only up to rounding and the sign of zero. *)
Class FieldLaws (C : Type) `{Scalar C} : Prop := {
  s_add_comm : forall x y : C, s_add x y = s_add y x;
  s_add_assoc : forall x y z : C, s_add x (s_add y z) = s_add (s_add x y) z;
  s_add_0_l : forall x : C, s_add (s_of_int 0) x = x;
  s_add_neg_r : forall x : C, s_add x (s_neg x) = s_of_int 0;
  s_mul_comm : forall x y : C, s_mul x y = s_mul y x;
  s_mul_assoc : forall x y z : C, s_mul x (s_mul y z) = s_mul (s_mul x y) z;
  s_mul_1_l : forall x : C, s_mul s_one x = x;
  s_distr_r : forall x y z : C,
      s_mul (s_add x y) z = s_add (s_mul x z) (s_mul y z);
  s_of_int_1 : s_of_int 1 = s_one;
  s_of_int_add : forall a b : Z, s_of_int (a + b) = s_add (s_of_int a) (s_of_int b);
  s_div_def : forall x y : C, s_div x y = s_mul x (s_div s_one y);
  s_of_int_inv : forall m : Z,
      m <> 0 -> s_mul (s_of_int m) (s_div s_one (s_of_int m)) = s_one
}.

(** ** The value of a binary64 number *)

Definition pow2 (e : Z) : Q :=
  match e with
  | Z0 => 1%Q
  | Zpos p => inject_Z (2 ^ Zpos p)
  | Zneg p => Qmake 1 (2 ^ p)
  end.

(** The rational number a finite binary64 value stands for, in lowest terms;
    infinities and NaN are sent to 0, and [f64_finite] tells them apart. *)
Definition f64_to_Q (x : float) : Q :=
  match Prim2SF x with
  | S754_finite s m e =>
      Qred (Qmult (inject_Z (if s then Zneg m else Zpos m)) (pow2 e))
  | _ => 0%Q
  end.

Definition f64_finite (x : float) : bool :=
  match Prim2SF x with
  | S754_finite _ _ _ | S754_zero _ => true
  | _ => false
  end.

Definition f64_to_R (x : float) : R := Q2R (f64_to_Q x).

(** The two zeros of binary64, and two binary64 values that are the same
    number: identical, or one zero and the other.  This is [x == y] of
    Python, but for NaN, which is taken as the same as itself. *)
Definition f64_is_zero (x : float) : Prop := x = 0%float \/ x = (-0)%float.

Definition f64_same (x y : float) : Prop :=
  x = y \/ (f64_is_zero x /\ f64_is_zero y).

(** A root in binary64: the polynomial evaluates to a zero. *)
Definition f64_root (coef : list float) (x : float) : Prop :=
  f64_is_zero (poly_val coef x).

(** The number 1.0 and the test for a zero, on the specification of the
    floats. *)
Definition SF_one : spec_float := S754_finite false 4503599627370496 (-52).

Definition SF_is_zero (x : spec_float) : bool :=
  match x with S754_zero _ => true | _ => false end.

(** [|x - y| <= tol], on real numbers. *)
Definition within (tol x y : R) : Prop := (Rabs (x - y) <= tol)%R.

(** ** The scenario of the notebook *)

(** The trace vector of the 4x4 matrix of the notebook, to four digits. *)
Definition scenario_traces : list float :=
  [1%float; 0.4372%float; 0.2299%float; 0.1290%float].

(** What [compute_coefs(4, scenario_traces)] evaluates to in binary64; every
    load is inside the array, and [scenario_coefs_computed] shows that the
    value is the same for every content of the memory. *)
Definition scenario_coefs : list float :=
  Eval vm_compute in
    match compute_coefs (M := holding 0%float) 4 scenario_traces with
    | Ok cs => cs
    | Raise _ => []
    end.

(** The coefficients and the eigenvalues the notebook prints, to the digits
    the specification quotes. *)
Definition claimed_coefs : list R :=
  [1%R; (-1)%R; 0.2814%R; (-0.0247)%R; 0.00065%R].

Definition claimed_roots : list R := [0.0502%R; 0.0784%R; 0.2793%R; 0.5921%R].

(** Where the roots of the polynomial with the coefficients [scenario_coefs]
    are, to four digits. *)
Definition located_roots : list R := [0.0481%R; 0.0810%R; 0.2788%R; 0.5921%R].

(** Every value of [rs] is within [tol] of a root of the polynomial. *)
Definition roots_within (tol : R) (coef : list R) (rs : list R) : Prop :=
  Forall (fun r => exists x, is_root coef x /\ within tol x r) rs.

(** The scenario: the coefficients returned for [scenario_traces] are finite
    numbers within [tol_coefs] of the quoted ones, and every value of [roots]
    is within [tol_roots] of a root of [Polynomial(coefs[::-1])]. *)
Definition scenario_holds {M : Memory float} (tol_coefs tol_roots : R)
           (roots : list R) : Prop :=
  exists cs,
    compute_coefs 4 scenario_traces = Ok cs /\
    forallb f64_finite cs = true /\
    Forall2 (within tol_coefs) (map f64_to_R cs) claimed_coefs /\
    roots_within tol_roots (poly (map f64_to_R cs)) roots.

(** The polynomial of the scenario, on the real numbers. *)
Definition scenario_poly (x : R) : R :=
  poly_val (poly (map f64_to_R scenario_coefs)) x.

(** ** The round trip through the eigenvalues *)



(** ** The cell that calls the two functions *)

Section Notebook.

Context {C : Type} `{Scalar C} {M : Memory C}.

(** [coefs = compute_coefs(d, get_traces(rho))]: the traces are computed
    first, and an exception of [get_traces] leaves [compute_coefs] uncalled. *)
Definition coefs_cell (d : Z) (rho : matrix C) : result (list C) :=
  traces <- get_traces rho ;;
  compute_coefs d traces.

(** [rho * a], the matrix with every entry multiplied by [a] (the notebook
    keeps the line [rho = rho*100] in a comment). *)
Definition scale_rows (a : C) (r : list (list C)) : list (list C) :=
  map (map (s_mul a)) r.

Definition scale_matrix (a : C) (rho : matrix C) : matrix C :=
  Matrix (scale_rows a (rows rho)) (shape1 rho).

(** Entry [i] of a list multiplied by the power [first + i] of [a]. *)
Definition scale_from (first : nat) (a : C) (l : list C) : list C :=
  map (fun p => s_mul (s_pow a (fst p)) (snd p))
      (combine (seq first (length l)) l).

(** A trace vector with [traces[i]] multiplied by [a**(i+1)], and a
    coefficient vector with [coefs[m]] multiplied by [a**m]. *)
Definition scale_traces (a : C) (traces : list C) : list C :=
  scale_from 1 a traces.

Definition scale_coefs (a : C) (coefs : list C) : list C :=
  scale_from 0 a coefs.

End Notebook.

(** ** The complex numbers *)

(** A complex number as the pair of its real and imaginary parts: the numbers
    of the notebook's matrix [rho], in exact arithmetic. *)
Definition Cx : Type := (R * R)%type.

Definition Cx_of_int (z : Z) : Cx := (IZR z, 0%R).

Definition Cx_add (x y : Cx) : Cx := ((fst x + fst y)%R, (snd x + snd y)%R).

Definition Cx_mul (x y : Cx) : Cx :=
  ((fst x * fst y - snd x * snd y)%R, (fst x * snd y + snd x * fst y)%R).

Definition Cx_neg (x : Cx) : Cx := ((- fst x)%R, (- snd x)%R).

Definition Cx_div (x y : Cx) : Cx :=
  let n := (fst y * fst y + snd y * snd y)%R in
  (((fst x * fst y + snd x * snd y) / n)%R,
   ((snd x * fst y - fst x * snd y) / n)%R).

#[export] Instance Scalar_Cx : Scalar Cx := {
  s_one := (1%R, 0%R);
  s_of_int := Cx_of_int;
  s_add := Cx_add;
  s_mul := Cx_mul;
  s_div := Cx_div;
  s_neg := Cx_neg
}.

(** ** Loops, ranges and indexing *)

Lemma bind_Ok {A B : Type} (a : A) (k : A -> result B) :
  (x <- Ok a ;; k x) = k a.
Proof. reflexivity. Qed.

Lemma for_each_app {A S : Type} (xs ys : list A) (body : A -> S -> result S) (s : S) :
  for_each (xs ++ ys) body s = (s' <- for_each xs body s ;; for_each ys body s').
Proof.
  revert s; induction xs as [|x xs IH]; intros s; simpl; [reflexivity|].
  destruct (body x s) as [s'|e]; simpl; [apply IH | reflexivity].
Qed.

Lemma for_each_ext {A S : Type} (xs : list A) (body1 body2 : A -> S -> result S) :
  (forall x, In x xs -> forall s, body1 x s = body2 x s) ->
  forall s, for_each xs body1 s = for_each xs body2 s.
Proof.
  induction xs as [|x xs IH]; intros Hext s; simpl; [reflexivity|].
  rewrite (Hext x (or_introl eq_refl) s).
  destruct (body2 x s) as [s'|e]; simpl; [|reflexivity].
  apply IH; intros y Hy; apply Hext; right; exact Hy.
Qed.

(** A loop whose passes all succeed is a left fold. *)
Lemma for_each_fold {A S : Type} (xs : list A) (body : A -> S -> result S)
      (f : S -> A -> S) :
  (forall x, In x xs -> forall s, body x s = Ok (f s x)) ->
  forall s, for_each xs body s = Ok (fold_left f xs s).
Proof.
  induction xs as [|x xs IH]; intros Hb s; simpl; [reflexivity|].
  rewrite (Hb x (or_introl eq_refl) s); simpl.
  apply IH; intros y Hy; apply Hb; right; exact Hy.
Qed.

Lemma py_range_length (lo hi : Z) : length (py_range lo hi) = Z.to_nat (hi - lo).
Proof. unfold py_range; rewrite length_map, length_seq; reflexivity. Qed.

Lemma py_range_In (lo hi k : Z) : In k (py_range lo hi) <-> lo <= k < hi.
Proof.
  unfold py_range; rewrite in_map_iff; split.
  - intros (i & <- & Hi); apply in_seq in Hi; lia.
  - intros Hk; exists (Z.to_nat (k - lo)); split; [lia|].
    apply in_seq; lia.
Qed.

Lemma py_range_empty (lo hi : Z) : hi <= lo -> py_range lo hi = [].
Proof.
  intros Hle; unfold py_range.
  replace (Z.to_nat (hi - lo)) with O by lia; reflexivity.
Qed.

Lemma py_range_snoc (lo hi : Z) :
  lo <= hi -> py_range lo (hi + 1) = py_range lo hi ++ [hi].
Proof.
  intros Hle; unfold py_range.
  replace (Z.to_nat (hi + 1 - lo)) with (S (Z.to_nat (hi - lo))) by lia.
  rewrite seq_S, map_app; simpl.
  do 2 f_equal; lia.
Qed.

Lemma map_seq_from {B : Type} (f : nat -> B) (a b : nat) :
  map f (seq a b) = map (fun i => f (a + i)%nat) (seq 0 b).
Proof.
  revert a f; induction b as [|b IH]; intros a f; simpl; [reflexivity|].
  f_equal; [f_equal; lia|].
  rewrite (IH (S a) f), (IH 1%nat (fun i => f (a + i)%nat)).
  apply map_ext; intros i; f_equal; lia.
Qed.

Lemma py_range_app (lo mid hi : Z) :
  lo <= mid <= hi -> py_range lo hi = py_range lo mid ++ py_range mid hi.
Proof.
  intros Hm; unfold py_range.
  replace (Z.to_nat (hi - lo)) with (Z.to_nat (mid - lo) + Z.to_nat (hi - mid))%nat by lia.
  rewrite seq_app, map_app; f_equal.
  rewrite map_seq_from.
  apply map_ext; intros i; lia.
Qed.

Lemma py_range_cons (lo hi : Z) :
  lo < hi -> py_range lo hi = lo :: py_range (lo + 1) hi.
Proof.
  intros Hlt; rewrite (py_range_app lo (lo + 1) hi) by lia.
  unfold py_range at 1.
  replace (Z.to_nat (lo + 1 - lo)) with 1%nat by lia; simpl.
  f_equal; lia.
Qed.

Lemma py_range_nth_error (lo hi : Z) (i : nat) :
  (i < Z.to_nat (hi - lo))%nat ->
  nth_error (py_range lo hi) i = Some (lo + Z.of_nat i).
Proof.
  intros Hi; unfold py_range.
  rewrite nth_error_map, nth_error_seq.
  destruct (Nat.ltb_spec i (Z.to_nat (hi - lo))); [reflexivity | lia].
Qed.

Lemma getitem_in_range {A : Type} (v : list A) (i : Z) :
  0 <= i < Z.of_nat (length v) ->
  exists a, getitem v i = Ok a /\ nth_error v (Z.to_nat i) = Some a.
Proof.
  intros Hi; unfold getitem.
  destruct (Z.ltb_spec i 0); [lia|].
  destruct (Z.ltb_spec i 0); [lia|].
  destruct (Z.leb_spec (Z.of_nat (length v)) i); [lia|]; simpl.
  destruct (nth_error v (Z.to_nat i)) as [a|] eqn:Hn.
  - exists a; split; reflexivity.
  - apply nth_error_None in Hn; lia.
Qed.

Lemma fold_left_map_fused {A B S : Type} (f : S -> B -> S) (g : A -> B) (xs : list A) (s : S) :
  fold_left f (map g xs) s = fold_left (fun acc x => f acc (g x)) xs s.
Proof. revert s; induction xs as [|x xs IH]; intros s; simpl; [reflexivity | apply IH]. Qed.

Lemma fold_left_ext_in {A S : Type} (f g : S -> A -> S) (xs : list A) :
  (forall x, In x xs -> forall s, f s x = g s x) ->
  forall s, fold_left f xs s = fold_left g xs s.
Proof.
  induction xs as [|x xs IH]; intros Hfg s; simpl; [reflexivity|].
  rewrite (Hfg x (or_introl eq_refl) s).
  apply IH; intros y Hy; apply Hfg; right; exact Hy.
Qed.

Lemma combine_snoc {A B : Type} (u : list A) (v : list B) (a : A) (b : B) :
  length u = length v -> combine (u ++ [a]) (v ++ [b]) = combine u v ++ [(a, b)].
Proof.
  revert v; induction u as [|x u IH]; intros [|y v] Hlen;
    try discriminate Hlen; simpl; [reflexivity|].
  rewrite IH by (simpl in Hlen; lia); reflexivity.
Qed.

Lemma fold_left_snoc_map {A B : Type} (g : A -> B) (xs : list A) (init : list B) :
  fold_left (fun acc x => acc ++ [g x]) xs init = init ++ map g xs.
Proof.
  revert init; induction xs as [|x xs IH]; intros init; simpl.
  - symmetry; apply app_nil_r.
  - rewrite IH, <- app_assoc; reflexivity.
Qed.

(** ** The recursion of [c_n_m] *)

Section Recursion.

Context {C : Type} `{Scalar C} {M : Memory C}.

(** The budget does not matter once it exceeds [m]. *)
Lemma c_n_m_fuel_stable (f1 f2 : nat) (n m : Z) (vec : list C) :
  (Z.to_nat m < f1)%nat -> (Z.to_nat m < f2)%nat ->
  c_n_m_fuel f1 n m vec = c_n_m_fuel f2 n m vec.
Proof.
  revert f2 m; induction f1 as [|f1 IH]; intros f2 m H1 H2; [lia|].
  destruct f2 as [|f2]; [lia|]; simpl.
  destruct (m =? 0); [reflexivity|].
  f_equal.
  apply for_each_ext; intros k Hk suma.
  apply py_range_In in Hk.
  unfold c_n_m_step; rewrite (IH f2 (m - k)) by lia; reflexivity.
Qed.

(** The equation the code of [c_n_m] reads as. *)
Lemma c_n_m_unfold (n m : Z) (vec : list C) :
  c_n_m n m vec =
  if m =? 0 then Ok s_one
  else
    suma <- for_each (py_range 1 (m + 1))
              (c_n_m_step (fun j => c_n_m n j vec) m vec) (s_of_int 0) ;;
    Ok (s_mul suma (s_div (s_of_int (-1)) (s_of_int m))).
Proof.
  unfold c_n_m at 1; simpl.
  destruct (m =? 0); [reflexivity|].
  f_equal.
  apply for_each_ext; intros k Hk suma.
  apply py_range_In in Hk.
  unfold c_n_m_step, c_n_m.
  rewrite (c_n_m_fuel_stable (Z.to_nat m) (S (Z.to_nat (m - k)))) by lia.
  reflexivity.
Qed.

Lemma c_n_m_zero (n : Z) (vec : list C) : c_n_m n 0 vec = Ok s_one.
Proof. reflexivity. Qed.

Lemma c_n_m_negative (n m : Z) (vec : list C) :
  m < 0 ->
  c_n_m n m vec = Ok (s_mul (s_of_int 0) (s_div (s_of_int (-1)) (s_of_int m))).
Proof.
  intros Hm; rewrite c_n_m_unfold.
  destruct (Z.eqb_spec m 0); [lia|].
  rewrite py_range_empty by lia; reflexivity.
Qed.

Lemma c_n_m_fuel_n_irrelevant (fuel : nat) (n n' m : Z) (vec : list C) :
  c_n_m_fuel fuel n m vec = c_n_m_fuel fuel n' m vec.
Proof.
  revert m; induction fuel as [|fuel IH]; intros m; simpl; [reflexivity|].
  destruct (m =? 0); [reflexivity|].
  f_equal.
  apply for_each_ext; intros k _ suma.
  unfold c_n_m_step; rewrite (IH (m - k)); reflexivity.
Qed.

(** Inside the array the load gives the entry, whatever the memory holds. *)
Lemma load_trace_at (vec : list C) (k : Z) :
  1 <= k <= Z.of_nat (length vec) -> load vec (k - 1) = trace_at vec k.
Proof.
  intros Hk; unfold load, trace_at.
  destruct (Z.ltb_spec (k - 1) 0); [lia|].
  destruct (Z.ltb_spec (k - 1) 0); [lia|].
  apply nth_indep; lia.
Qed.

(** With enough traces every call returns, and its value is the sum the loop
    accumulated, times [-1/m]. *)
Lemma c_n_m_returns (n : Z) (vec : list C) (m : Z) :
  0 <= m -> m <= Z.of_nat (length vec) ->
  c_n_m n m vec = Ok (coef n vec m) /\
  (1 <= m ->
   coef n vec m =
   s_mul (fold_left (term n m vec) (py_range 1 (m + 1)) (s_of_int 0))
         (s_div (s_of_int (-1)) (s_of_int m))).
Proof.
  intros Hm; revert m Hm.
  apply (Zlt_0_ind (fun m => m <= Z.of_nat (length vec) ->
    c_n_m n m vec = Ok (coef n vec m) /\
    (1 <= m -> coef n vec m =
       s_mul (fold_left (term n m vec) (py_range 1 (m + 1)) (s_of_int 0))
             (s_div (s_of_int (-1)) (s_of_int m))))).
  intros m IH Hm Hlen.
  assert (Hloop : m <> 0 ->
    c_n_m n m vec =
    Ok (s_mul (fold_left (term n m vec) (py_range 1 (m + 1)) (s_of_int 0))
              (s_div (s_of_int (-1)) (s_of_int m)))).
  { intros Hm0; rewrite c_n_m_unfold.
    destruct (Z.eqb_spec m 0); [lia|].
    rewrite (for_each_fold _ _ (term n m vec)); [reflexivity|].
    intros k Hk suma; apply py_range_In in Hk.
    unfold c_n_m_step, term.
    destruct (IH (m - k)) as [Hc _]; [lia | lia |].
    rewrite Hc; simpl.
    rewrite load_trace_at by lia; reflexivity. }
  destruct (Z.eq_dec m 0) as [->|Hm0].
  - split; [reflexivity | lia].
  - unfold coef; rewrite (Hloop Hm0); simpl; split; reflexivity.
Qed.

Lemma c_n_m_Ok_coef (n : Z) (vec : list C) (m : Z) :
  0 <= m <= Z.of_nat (length vec) -> c_n_m n m vec = Ok (coef n vec m).
Proof. intros [H0 Hl]; apply (c_n_m_returns n vec m H0 Hl). Qed.

Lemma coef_equation (n : Z) (vec : list C) (m : Z) :
  1 <= m <= Z.of_nat (length vec) ->
  coef n vec m =
  s_mul (fold_left (term n m vec) (py_range 1 (m + 1)) (s_of_int 0))
        (s_div (s_of_int (-1)) (s_of_int m)).
Proof. intros [H1 Hl]; apply (c_n_m_returns n vec m); lia. Qed.

Lemma coef_zero (n : Z) (vec : list C) : coef n vec 0 = s_one.
Proof. reflexivity. Qed.

(** [compute_coefs] returns the values of [c_n_m] at [0], [1], ..., [d]. *)
Lemma compute_coefs_returns (d : Z) (vec : list C) :
  d <= Z.of_nat (length vec) ->
  compute_coefs d vec = Ok (s_one :: map (coef d vec) (py_range 1 (d + 1))).
Proof.
  intros Hd; unfold compute_coefs.
  rewrite (for_each_fold _ _ (fun c_list m => c_list ++ [coef d vec m])).
  - rewrite fold_left_snoc_map; reflexivity.
  - intros m Hm c_list; apply py_range_In in Hm.
    rewrite c_n_m_Ok_coef by lia; reflexivity.
Qed.

Lemma coefs_nth_error (d : Z) (vec : list C) (m : Z) :
  1 <= m <= d ->
  nth_error (s_one :: map (coef d vec) (py_range 1 (d + 1))) (Z.to_nat m)
  = Some (coef d vec m).
Proof.
  intros Hm.
  replace (Z.to_nat m) with (S (Z.to_nat (m - 1))) by lia; simpl.
  rewrite nth_error_map, py_range_nth_error by lia.
  replace (1 + Z.of_nat (Z.to_nat (m - 1))) with m by lia; reflexivity.
Qed.

End Recursion.

(** ** Loads past the end of the traces *)

Section PastTheEnd.

Context {C : Type} `{Scalar C} {M : Memory C}.

Lemma length_seen_upto (m : Z) (v : list C) :
  Z.of_nat (length (seen_upto m v)) = Z.max (Z.of_nat (length v)) m.
Proof.
  unfold seen_upto; rewrite length_app, length_map, py_range_length; lia.
Qed.

Lemma seen_upto_enough (m : Z) (v : list C) :
  m <= Z.of_nat (length v) -> seen_upto m v = v.
Proof.
  intros Hm; unfold seen_upto.
  rewrite py_range_empty by lia; apply app_nil_r.
Qed.

(** A load at an index that is not negative gives the same scalar on the
    array and on the array followed by what is behind it. *)
Lemma load_seen_upto (m : Z) (v : list C) (i : Z) :
  0 <= i -> load (seen_upto m v) i = load v i.
Proof.
  intros Hi; unfold load.
  destruct (Z.ltb_spec i 0); [lia|].
  destruct (Z.ltb_spec i 0); [lia|].
  unfold seen_upto.
  destruct (Z_lt_le_dec i (Z.of_nat (length v))) as [Hin|Hout].
  - apply app_nth1; lia.
  - rewrite app_nth2 by lia.
    rewrite (nth_overflow v) by lia.
    destruct (Z_lt_le_dec i m) as [Hm|Hm].
    + apply nth_error_nth.
      rewrite nth_error_map, py_range_nth_error by lia; simpl.
      f_equal; f_equal; lia.
    + apply nth_overflow; rewrite length_map, py_range_length; lia.
Qed.

Lemma c_n_m_fuel_seen (fuel : nat) (n j m : Z) (v : list C) :
  c_n_m_fuel fuel n j (seen_upto m v) = c_n_m_fuel fuel n j v.
Proof.
  revert j; induction fuel as [|fuel IH]; intros j; simpl; [reflexivity|].
  destruct (j =? 0); [reflexivity|].
  f_equal.
  apply for_each_ext; intros k Hk suma; apply py_range_In in Hk.
  unfold c_n_m_step; rewrite IH, load_seen_upto by lia; reflexivity.
Qed.

(** The compiled functions compute on an array what they compute on the array
    followed by what the memory holds behind it. *)
Lemma c_n_m_seen (n j m : Z) (v : list C) :
  c_n_m n j (seen_upto m v) = c_n_m n j v.
Proof. apply c_n_m_fuel_seen. Qed.

Lemma coef_seen (n j m : Z) (v : list C) :
  coef n (seen_upto m v) j = coef n v j.
Proof. unfold coef; rewrite c_n_m_seen; reflexivity. Qed.

Lemma compute_coefs_seen (d m : Z) (v : list C) :
  compute_coefs d (seen_upto m v) = compute_coefs d v.
Proof.
  unfold compute_coefs.
  apply for_each_ext; intros j _ c_list.
  rewrite c_n_m_seen; reflexivity.
Qed.

(** Every call of [c_n_m] returns, with enough traces or not. *)
Lemma c_n_m_always_returns (n m : Z) (v : list C) :
  c_n_m n m v = Ok (coef n v m).
Proof.
  destruct (Z_lt_le_dec m 0) as [Hneg|Hpos].
  - unfold coef; rewrite c_n_m_negative by exact Hneg; reflexivity.
  - rewrite <- (c_n_m_seen n m m v), <- (coef_seen n m m v).
    apply c_n_m_Ok_coef; rewrite length_seen_upto; lia.
Qed.

Lemma compute_coefs_always_returns (d : Z) (v : list C) :
  compute_coefs d v = Ok (s_one :: map (coef d v) (py_range 1 (d + 1))).
Proof.
  unfold compute_coefs.
  rewrite (for_each_fold _ _ (fun c_list m => c_list ++ [coef d v m])).
  - rewrite fold_left_snoc_map; reflexivity.
  - intros m _ c_list; rewrite c_n_m_always_returns; reflexivity.
Qed.

Lemma compute_coefs_nonpositive (d : Z) (vec : list C) :
  d < 1 -> compute_coefs d vec = Ok [s_one].
Proof.
  intros Hd; unfold compute_coefs.
  rewrite py_range_empty by lia; reflexivity.
Qed.

(** Entry [m] of the vector [compute_coefs] returns is the value of the call
    at [m]. *)
Lemma compute_coefs_entry (d : Z) (v cs : list C) (m : Z) :
  1 <= m <= d -> compute_coefs d v = Ok cs ->
  nth_error cs (Z.to_nat m) = Some (coef d v m).
Proof.
  intros Hm Hcs; rewrite compute_coefs_always_returns in Hcs.
  injection Hcs as <-; apply coefs_nth_error; exact Hm.
Qed.

(** The budget of [c_n_m] is never exhausted. *)
Lemma c_n_m_fuel_enough (n m : Z) (vec : list C) :
  c_n_m n m vec <> Raise OutOfFuel.
Proof. rewrite c_n_m_always_returns; discriminate. Qed.

End PastTheEnd.

(** With [m] entries in the array the call at [m] makes no load outside it:
    its value is the same for every content of the memory. *)
Lemma coef_memory {C : Type} `{Scalar C} (M M' : Memory C)
      (n : Z) (v : list C) (m : Z) :
  0 <= m -> m <= Z.of_nat (length v) ->
  coef (M := M) n v m = coef (M := M') n v m.
Proof.
  intros Hm; revert m Hm.
  apply (Zlt_0_ind (fun m => m <= Z.of_nat (length v) ->
                             coef (M := M) n v m = coef (M := M') n v m)).
  intros m IH Hm Hlen.
  destruct (Z.eq_dec m 0) as [->|Hm0]; [reflexivity|].
  rewrite !coef_equation by lia; f_equal.
  apply fold_left_ext_in; intros k Hk suma; apply py_range_In in Hk.
  unfold term; rewrite (IH (m - k)) by lia; reflexivity.
Qed.

Lemma c_n_m_memory {C : Type} `{Scalar C} (M M' : Memory C)
      (n : Z) (v : list C) (m : Z) :
  m <= Z.of_nat (length v) ->
  c_n_m (M := M) n m v = c_n_m (M := M') n m v.
Proof.
  intros Hlen; destruct (Z_lt_le_dec m 0) as [Hneg|Hpos].
  - rewrite !c_n_m_negative by exact Hneg; reflexivity.
  - rewrite !c_n_m_always_returns; f_equal; apply coef_memory; assumption.
Qed.

Lemma compute_coefs_memory {C : Type} `{Scalar C} (M M' : Memory C)
      (d : Z) (v : list C) :
  d <= Z.of_nat (length v) ->
  compute_coefs (M := M) d v = compute_coefs (M := M') d v.
Proof.
  intros Hlen; rewrite !compute_coefs_always_returns; do 2 f_equal.
  apply map_ext_in; intros m Hm; apply py_range_In in Hm.
  apply coef_memory; lia.
Qed.

(** What a call with too few traces returns: the coefficients of the traces
    followed by the scalars the memory holds behind them. *)
Lemma compute_coefs_past_end {C : Type} `{Scalar C} {M : Memory C}
      (d : Z) (v : list C) :
  exists cs,
    compute_coefs d v = Ok cs /\
    length cs = S (Z.to_nat d) /\
    nth_error cs 0 = Some s_one /\
    forall M' : Memory C,
      compute_coefs (M := M') d (seen_upto (M := M) d v) = Ok cs.
Proof.
  eexists; split; [apply compute_coefs_always_returns|].
  split; [simpl; rewrite length_map, py_range_length; f_equal; lia|].
  split; [reflexivity|].
  intros M'.
  rewrite (compute_coefs_memory M' M) by (rewrite length_seen_upto; lia).
  rewrite compute_coefs_seen; apply compute_coefs_always_returns.
Qed.

(** ** The real numbers obey the laws *)

#[export] Instance FieldLaws_R : FieldLaws R.
Proof.
  split; simpl; intros; try ring.
  - apply plus_IZR.
  - unfold Rdiv; ring.
  - field; apply not_0_IZR; assumption.
Qed.

(** ** binary64 obeys the two laws of the recursion *)

Lemma SFmul_comm (prec emax : Z) (x y : spec_float) :
  SFmul prec emax x y = SFmul prec emax y x.
Proof.
  destruct x as [sx|sx| |sx mx ex], y as [sy|sy| |sy my ey]; simpl;
    try reflexivity; try (rewrite xorb_comm; reflexivity).
  rewrite xorb_comm, Pos.mul_comm, Z.add_comm; reflexivity.
Qed.

(** Rounding to nearest even does not look at the sign. *)
Lemma binary_round_aux_negb (prec emax : Z) (s : bool) (m e : Z) (l : location) :
  binary_round_aux prec emax (negb s) m e l
  = SFopp (binary_round_aux prec emax s m e l).
Proof.
  unfold binary_round_aux.
  destruct (shr_fexp prec emax m e l) as [mrs e'].
  destruct (shr_fexp prec emax _ e' loc_Exact) as [mrs' e''].
  destruct (shr_m mrs'); simpl; try reflexivity.
  destruct (e'' <=? emax - prec); reflexivity.
Qed.

Lemma SFdiv_opp_l (prec emax : Z) (x y : spec_float) :
  SFdiv prec emax (SFopp x) y = SFopp (SFdiv prec emax x y).
Proof.
  destruct x as [sx|sx| |sx mx ex], y as [sy|sy| |sy my ey]; simpl;
    try reflexivity; try (rewrite negb_xorb_l; reflexivity).
  destruct (SFdiv_core_binary prec emax (Z.pos mx) ex (Z.pos my) ey)
    as [[mz ez] lz].
  rewrite <- negb_xorb_l; apply binary_round_aux_negb.
Qed.

#[export] Instance RecursionLaws_f64 : RecursionLaws float.
Proof.
  split; simpl.
  - intros x y; apply Prim2SF_inj.
    rewrite !FloatAxioms.mul_spec; apply SFmul_comm.
  - intros y; apply Prim2SF_inj.
    rewrite FloatAxioms.opp_spec, !FloatAxioms.div_spec.
    change (Prim2SF (-1)%float) with (SFopp (Prim2SF 1%float)).
    apply SFdiv_opp_l.
Qed.

(** ** binary64: multiplying by 1 and by -1, adding 0 *)

Lemma Prim2SF_one : Prim2SF 1%float = S754_finite false 4503599627370496 (-52).
Proof. reflexivity. Qed.

Lemma canonical_fexp (m : positive) (e : Z) :
  SpecFloat.bounded 53 1024 m e = true ->
  fexp 53 1024 (Zpos (digits2_pos m) + e) = e /\ e <= 1024 - 53.
Proof.
  unfold SpecFloat.bounded, canonical_mantissa; intros Hb.
  apply andb_prop in Hb as [Hc He].
  apply Z.eqb_eq in Hc; apply Z.leb_le in He; split; assumption.
Qed.

(** Multiplying a mantissa by 2^52 and lowering the exponent by 52 rounds back
    to the same number. *)
Lemma binary_round_aux_shifted (s : bool) (m : positive) (e : Z) :
  SpecFloat.bounded 53 1024 m e = true ->
  binary_round_aux 53 1024 s (Zpos (4503599627370496 * m)) (-52 + e) loc_Exact
  = S754_finite s m e.
Proof.
  intros Hb; destruct (canonical_fexp m e Hb) as [Hf He].
  unfold binary_round_aux, shr_fexp.
  cbn [Pos.mul Zdigits2 digits2_pos shr_record_of_loc].
  rewrite !Pos2Z.inj_succ.
  replace (fexp 53 1024 _ - (-52 + e)) with 52.
  2:{ unfold fexp in *. unfold emin in *. lia. }
  cbn [shr SpecFloat.iter_pos shr_1 orb shr_m loc_of_shr_record round_nearest_even Zdigits2].
  replace (-52 + e + 52) with e by lia.
  rewrite Hf, Z.sub_diag; cbn [shr shr_m].
  apply Z.leb_le in He; rewrite He; reflexivity.
Qed.

Lemma SFmul_one_l (x : spec_float) :
  SpecFloat.valid_binary 53 1024 x = true -> SFmul 53 1024 SF_one x = x.
Proof.
  destruct x as [s|s| |s m e]; intros Hv; try reflexivity.
  apply (binary_round_aux_shifted s m e Hv).
Qed.

Lemma SFmul_minus_one_l (x : spec_float) :
  SpecFloat.valid_binary 53 1024 x = true -> SFmul 53 1024 (SFopp SF_one) x = SFopp x.
Proof.
  destruct x as [s|s| |s m e]; intros Hv; try reflexivity.
  apply (binary_round_aux_shifted (negb s) m e Hv).
Qed.

Lemma SFadd_zero_l (x : spec_float) :
  SFadd 53 1024 (S754_zero false) x
  = match x with S754_zero _ => S754_zero false | _ => x end.
Proof. destruct x as [[|]|[|]| |s m e]; reflexivity. Qed.

Lemma f64_mul_1_l (x : float) : (1 * x)%float = x.
Proof.
  apply Prim2SF_inj; rewrite FloatAxioms.mul_spec.
  apply SFmul_one_l, Prim2SF_valid.
Qed.

Lemma f64_mul_minus_1_l (x : float) : ((-1) * x)%float = (- x)%float.
Proof.
  apply Prim2SF_inj; rewrite FloatAxioms.mul_spec, FloatAxioms.opp_spec.
  apply SFmul_minus_one_l, Prim2SF_valid.
Qed.

Lemma f64_add_0_l (x : float) :
  x <> (-0)%float -> (0 + x)%float = x.
Proof.
  intros Hx; apply Prim2SF_inj; rewrite FloatAxioms.add_spec.
  change (Prim2SF 0) with (S754_zero false).
  unfold SF64add; rewrite SFadd_zero_l.
  destruct (Prim2SF x) as [[|]| | |] eqn:Hp; try reflexivity.
  exfalso; apply Hx, Prim2SF_inj; rewrite Hp; reflexivity.
Qed.

(** *** When a sum is zero *)

Lemma digits2_pos_bounds (p : positive) :
  2 ^ (Zpos (digits2_pos p) - 1) <= Zpos p < 2 ^ Zpos (digits2_pos p).
Proof.
  induction p as [p IH|p IH|]; cbn [digits2_pos].
  - rewrite Pos2Z.inj_succ, (Pos2Z.inj_xI p).
    replace (Z.succ (Zpos (digits2_pos p)) - 1)
      with (Z.succ (Zpos (digits2_pos p) - 1)) by lia.
    rewrite (Z.pow_succ_r 2 (Zpos (digits2_pos p) - 1)) by lia.
    rewrite (Z.pow_succ_r 2 (Zpos (digits2_pos p))) by lia. lia.
  - rewrite Pos2Z.inj_succ, (Pos2Z.inj_xO p).
    replace (Z.succ (Zpos (digits2_pos p)) - 1)
      with (Z.succ (Zpos (digits2_pos p) - 1)) by lia.
    rewrite (Z.pow_succ_r 2 (Zpos (digits2_pos p) - 1)) by lia.
    rewrite (Z.pow_succ_r 2 (Zpos (digits2_pos p))) by lia. lia.
  - simpl; lia.
Qed.

Lemma digits_unique (a b x : Z) :
  0 < a -> 0 < b ->
  2 ^ (a - 1) <= x < 2 ^ a -> 2 ^ (b - 1) <= x < 2 ^ b -> a = b.
Proof.
  intros Ha Hb Hxa Hxb.
  destruct (Z.lt_trichotomy a b) as [Hlt|[Heq|Hgt]]; [|exact Heq|].
  - assert (2 ^ a <= 2 ^ (b - 1)) by (apply Z.pow_le_mono_r; lia); lia.
  - assert (2 ^ b <= 2 ^ (a - 1)) by (apply Z.pow_le_mono_r; lia); lia.
Qed.

Lemma shr_1_lower (mrs : shr_record) (k : Z) :
  0 <= k -> 2 * k <= shr_m mrs -> k <= shr_m (shr_1 mrs).
Proof.
  destruct mrs as [m r s]; cbn [shr_m shr_1].
  destruct m as [|[p|p|]|[p|p|]]; cbn [shr_m]; lia.
Qed.

Lemma iter_shr_1_lower (p : positive) :
  forall (mrs : shr_record) (k : Z),
    0 <= k -> 2 ^ Zpos p * k <= shr_m mrs ->
    k <= shr_m (SpecFloat.iter_pos shr_1 p mrs).
Proof.
  induction p as [p IH|p IH|]; intros mrs k Hk Hm; cbn [SpecFloat.iter_pos].
  - rewrite (Pos2Z.inj_xI p) in Hm.
    replace (2 * Zpos p + 1) with (Z.succ (Zpos p + Zpos p)) in Hm by lia.
    rewrite Z.pow_succ_r, Z.pow_add_r in Hm by lia.
    assert (0 < 2 ^ Zpos p) by (apply Z.pow_pos_nonneg; lia).
    apply IH; [exact Hk|].
    apply IH; [nia|].
    apply shr_1_lower; nia.
  - rewrite (Pos2Z.inj_xO p) in Hm.
    replace (2 * Zpos p) with (Zpos p + Zpos p) in Hm by lia.
    rewrite Z.pow_add_r in Hm by lia.
    assert (0 < 2 ^ Zpos p) by (apply Z.pow_pos_nonneg; lia).
    apply IH; [exact Hk|].
    apply IH; nia.
  - apply shr_1_lower; [exact Hk|].
    change (2 ^ 1) with 2 in Hm; exact Hm.
Qed.

Lemma shr_m_of_loc (m : Z) (l : location) : shr_m (shr_record_of_loc m l) = m.
Proof. destruct l as [|[| |]]; reflexivity. Qed.

(** The shift that brings a mantissa to the format leaves it positive when the
    exponent is not below the least one. *)
Lemma shr_fexp_positive (m e : Z) (l : location) :
  0 < m -> SpecFloat.emin 53 1024 <= e ->
  0 < shr_m (fst (shr_fexp 53 1024 m e l)) /\
  SpecFloat.emin 53 1024 <= snd (shr_fexp 53 1024 m e l).
Proof.
  intros Hm He; unfold shr_fexp, shr.
  destruct (fexp 53 1024 (Zdigits2 m + e) - e) as [|p|p] eqn:Hn;
    cbn [fst snd]; rewrite ?shr_m_of_loc; try (split; assumption).
  destruct m as [|q|q]; try lia.
  cbn [Zdigits2] in Hn.
  assert (Hd := digits2_pos_bounds q).
  unfold fexp, SpecFloat.emin in *.
  split; [|lia].
  assert (Hpow : 2 ^ Zpos p <= 2 ^ (Zpos (digits2_pos q) - 1))
    by (apply Z.pow_le_mono_r; lia).
  assert (Hone : 1 <= shr_m (SpecFloat.iter_pos shr_1 p (shr_record_of_loc (Zpos q) l))).
  { apply iter_shr_1_lower; [lia|].
    rewrite shr_m_of_loc, Z.mul_1_r; lia. }
  lia.
Qed.

Lemma round_nearest_even_ge (m : Z) (l : location) :
  m <= round_nearest_even m l.
Proof.
  destruct l as [|[| |]]; cbn [round_nearest_even]; try lia.
  destruct (Z.even m); lia.
Qed.

Lemma binary_round_aux_not_zero (s : bool) (m e : Z) (l : location) :
  0 < m -> SpecFloat.emin 53 1024 <= e ->
  SF_is_zero (binary_round_aux 53 1024 s m e l) = false.
Proof.
  intros Hm He; unfold binary_round_aux.
  destruct (shr_fexp_positive m e l Hm He) as [Hm1 He1].
  destruct (shr_fexp 53 1024 m e l) as [mrs1 e1]; cbn [fst snd] in *.
  assert (Hr := round_nearest_even_ge (shr_m mrs1) (loc_of_shr_record mrs1)).
  destruct (shr_fexp_positive
              (round_nearest_even (shr_m mrs1) (loc_of_shr_record mrs1))
              e1 loc_Exact ltac:(lia) He1) as [Hm2 _].
  destruct (shr_fexp 53 1024 _ e1 loc_Exact) as [mrs2 e2]; cbn [fst] in *.
  destruct (shr_m mrs2) as [|q|q]; try lia.
  destruct (e2 <=? 1024 - 53); reflexivity.
Qed.

Lemma binary_round_not_zero (s : bool) (m : positive) (e : Z) :
  SpecFloat.emin 53 1024 <= e -> SF_is_zero (binary_round 53 1024 s m e) = false.
Proof.
  intros He; unfold binary_round, shl_align.
  destruct (fexp 53 1024 (Zpos (digits2_pos m) + e) - e) as [|p|p] eqn:Hn;
    apply binary_round_aux_not_zero; try lia.
  unfold fexp in *; lia.
Qed.

Lemma shl_align_value (m : positive) (e ez : Z) :
  ez <= e ->
  Zpos (fst (shl_align m e ez)) = Zpos m * 2 ^ (e - ez).
Proof.
  intros Hle; unfold shl_align.
  destruct (ez - e) as [|p|p] eqn:Hd; cbn [fst]; try lia.
  - replace (e - ez) with 0 by lia; lia.
  - replace (e - ez) with (Zpos p) by lia.
    change (Pos.iter xO m p) with (shift_pos p m).
    rewrite shift_pos_correct; change (Z.pow_pos 2 p) with (2 ^ Zpos p); lia.
Qed.

(** Two numbers of the format whose sum rounds to zero are opposite. *)
Lemma SFadd_zero_opposite (su sv : bool) (mu mv : positive) (eu ev : Z) :
  SpecFloat.bounded 53 1024 mu eu = true -> SpecFloat.bounded 53 1024 mv ev = true ->
  SF_is_zero (SFadd 53 1024 (S754_finite su mu eu) (S754_finite sv mv ev))
  = true ->
  su = negb sv /\ mu = mv /\ eu = ev.
Proof.
  intros Hu Hv Hz.
  destruct (canonical_fexp mu eu Hu) as [Hfu _].
  destruct (canonical_fexp mv ev Hv) as [Hfv _].
  cbn [SFadd] in Hz.
  set (ez := Z.min eu ev) in *.
  assert (Hez : SpecFloat.emin 53 1024 <= ez) by (unfold fexp, SpecFloat.emin in *; lia).
  assert (HA := shl_align_value mu eu ez ltac:(lia)).
  assert (HB := shl_align_value mv ev ez ltac:(lia)).
  set (A := Zpos (fst (shl_align mu eu ez))) in *.
  set (B := Zpos (fst (shl_align mv ev ez))) in *.
  assert (HApos : 0 < A) by (unfold A; lia).
  assert (HBpos : 0 < B) by (unfold B; lia).
  unfold binary_normalize in Hz.
  destruct (cond_Zopp su A + cond_Zopp sv B) as [|q|q] eqn:Hsum;
    try (rewrite binary_round_not_zero in Hz by exact Hez; discriminate).
  assert (Hsign : su = negb sv /\ A = B)
    by (destruct su, sv; cbn [cond_Zopp negb] in *; split; (reflexivity || lia)).
  destruct Hsign as [-> HAB]; split; [reflexivity|].
  assert (Hdu := digits2_pos_bounds mu).
  assert (Hdv := digits2_pos_bounds mv).
  assert (Hdig : Zpos (digits2_pos mu) + (eu - ez)
                 = Zpos (digits2_pos mv) + (ev - ez)).
  { apply (digits_unique _ _ A); try lia.
    - rewrite HA.
      replace (Zpos (digits2_pos mu) + (eu - ez) - 1)
        with (Zpos (digits2_pos mu) - 1 + (eu - ez)) by lia.
      rewrite !Z.pow_add_r by lia.
      assert (0 < 2 ^ (eu - ez)) by (apply Z.pow_pos_nonneg; lia).
      nia.
    - rewrite HAB, HB.
      replace (Zpos (digits2_pos mv) + (ev - ez) - 1)
        with (Zpos (digits2_pos mv) - 1 + (ev - ez)) by lia.
      rewrite !Z.pow_add_r by lia.
      assert (0 < 2 ^ (ev - ez)) by (apply Z.pow_pos_nonneg; lia).
      nia. }
  assert (Heq : eu = ev).
  { replace (Zpos (digits2_pos mu) + eu)
      with (Zpos (digits2_pos mv) + ev) in Hfu by lia.
    congruence. }
  subst ev; split; [|reflexivity].
  rewrite HA, HB in HAB.
  assert (0 < 2 ^ (eu - ez)) by (apply Z.pow_pos_nonneg; lia).
  apply Z.mul_cancel_r in HAB; [congruence | lia].
Qed.

Lemma SFadd_opposite_zero (s : bool) (m : positive) (e : Z) :
  SFadd 53 1024 (S754_finite (negb s) m e) (S754_finite s m e)
  = S754_zero false.
Proof.
  cbn [SFadd]; rewrite Z.min_id.
  unfold shl_align; rewrite Z.sub_diag; cbn [fst].
  destruct s; cbn [negb cond_Zopp]; rewrite ?Z.add_opp_diag_l, ?Z.add_opp_diag_r;
    reflexivity.
Qed.

(** *** The first coefficient and the root of a polynomial of degree 1 *)

Lemma f64_is_zero_spec (x : float) :
  f64_is_zero x <-> SF_is_zero (Prim2SF x) = true.
Proof.
  split.
  - intros [->| ->]; reflexivity.
  - destruct (Prim2SF x) as [[|]| | |] eqn:Hp; try discriminate; intros _.
    + right; apply Prim2SF_inj; rewrite Hp; reflexivity.
    + left; apply Prim2SF_inj; rewrite Hp; reflexivity.
Qed.

Lemma f64_minus_zero_dec (t : float) : t = (-0)%float \/ t <> (-0)%float.
Proof.
  destruct (Prim2SF t) as [[|]| | |] eqn:Hp;
    try (right; intros ->; discriminate Hp).
  left; apply Prim2SF_inj; rewrite Hp; reflexivity.
Qed.

Lemma f64_mul_minus_1_r (x : float) : (x * (-1))%float = (- x)%float.
Proof.
  rewrite <- f64_mul_minus_1_l.
  apply Prim2SF_inj; rewrite !FloatAxioms.mul_spec; apply SFmul_comm.
Qed.

(** What [c_n_m] computes from the first trace [t],
    [(0 + 1. * t) * (-1/1)]: the opposite of [t], but for [t = -0.0], where
    the sum [0 + -0.0] is [+0.0] and the result [-0.0]. *)
Lemma first_coefficient_binary64 (t : float) :
  (t <> (-0)%float -> ((0 + 1 * t) * (-1))%float = (- t)%float) /\
  (t = (-0)%float -> ((0 + 1 * t) * (-1))%float = (-0)%float).
Proof.
  split.
  - intros Ht; rewrite f64_mul_1_l, f64_add_0_l by exact Ht.
    apply f64_mul_minus_1_r.
  - intros ->; reflexivity.
Qed.

Lemma first_coefficient_same (t : float) :
  f64_same ((0 + 1 * t) * (-1))%float (- t)%float.
Proof.
  destruct (first_coefficient_binary64 t) as [Hne Heq].
  destruct (f64_minus_zero_dec t) as [Ht|Ht].
  - right; rewrite (Heq Ht), Ht; split; [right | left]; reflexivity.
  - left; exact (Hne Ht).
Qed.

Lemma SFadd_nan_r (x : spec_float) : SFadd 53 1024 x S754_nan = S754_nan.
Proof. destruct x as [s|s| |s m e]; reflexivity. Qed.

(** The value [c + x * (1 + x * 0)] of the polynomial with the coefficients
    [1, c]: [c + x] when [x] is finite, NaN when it is not. *)
Lemma linear_value_spec (c x : spec_float) :
  SpecFloat.valid_binary 53 1024 x = true ->
  SFadd 53 1024 c
    (SFmul 53 1024 x
       (SFadd 53 1024 SF_one (SFmul 53 1024 x (S754_zero false))))
  = match x with
    | S754_nan | S754_infinity _ => S754_nan
    | _ => SFadd 53 1024 c x
    end.
Proof.
  intros Hv; destruct x as [s|s| |s m e].
  - cbn [SFmul SFadd SF_one]; rewrite xorb_false_r; reflexivity.
  - cbn [SFmul SFadd SF_one]; apply SFadd_nan_r.
  - cbn [SFmul SFadd SF_one]; apply SFadd_nan_r.
  - cbn [SFmul]; cbn [SFadd SF_one].
    rewrite Pos.mul_comm, (Z.add_comm e), xorb_false_r.
    rewrite binary_round_aux_shifted by exact Hv; reflexivity.
Qed.

(** When the sum of the first coefficient for [a] and of [x] is a zero. *)
Lemma linear_root_spec (a x : spec_float) :
  SpecFloat.valid_binary 53 1024 a = true ->
  SpecFloat.valid_binary 53 1024 x = true ->
  SF_is_zero
    (match x with
     | S754_nan | S754_infinity _ => S754_nan
     | _ => SFadd 53 1024
              (match a with S754_zero _ => S754_zero true | _ => SFopp a end) x
     end) = true
  <-> (x = a /\ (exists s m e, a = S754_finite s m e)) \/
      (SF_is_zero x = true /\ SF_is_zero a = true).
Proof.
  intros Ha Hx.
  destruct a as [sa|sa| |sa ma ea], x as [sx|sx| |sx mx ex];
    cbn [SF_is_zero SFopp];
    try (cbn [SFadd SF_is_zero]; split;
         [ discriminate
         | intros [[Heq (s & m & e & Hfin)]|[H1 H2]];
           first [ discriminate Heq | discriminate Hfin
                 | discriminate H1 | discriminate H2 ] ]).
  - split; [intros _; right; split; reflexivity|].
    intros _; destruct sx; reflexivity.
  - split.
    + intros Hz.
      apply SFadd_zero_opposite in Hz; [|exact Ha | exact Hx].
      destruct Hz as (Hs & -> & ->).
      left; split; [|exists sa, mx, ex; reflexivity].
      f_equal; destruct sa, sx; simpl in Hs; congruence.
    + intros [[Heq _]|[H1 _]]; [|discriminate].
      injection Heq as -> -> ->.
      rewrite SFadd_opposite_zero; reflexivity.
Qed.

(** In binary64 the polynomial with the coefficients [1, c], where [c] is
    what the code computes from the trace [a], has a finite [a] for its one
    root. *)
Lemma linear_root_binary64 (a x : float) :
  f64_finite a = true ->
  f64_root [((0 + 1 * a) * (-1))%float; 1%float] x <-> f64_same x a.
Proof.
  intros Hfin.
  set (c := ((0 + 1 * a) * (-1))%float).
  unfold f64_root.
  change (poly_val [c; 1%float] x) with (c + x * (1 + x * 0))%float.
  rewrite f64_is_zero_spec.
  rewrite FloatAxioms.add_spec, FloatAxioms.mul_spec, FloatAxioms.add_spec,
    FloatAxioms.mul_spec.
  change (Prim2SF 1) with SF_one; change (Prim2SF 0) with (S754_zero false).
  unfold SF64add, SF64mul.
  rewrite linear_value_spec by apply Prim2SF_valid.
  assert (Hc : Prim2SF c
               = match Prim2SF a with
                 | S754_zero _ => S754_zero true
                 | _ => SFopp (Prim2SF a)
                 end).
  { destruct (first_coefficient_binary64 a) as [Hne Heq].
    destruct (f64_minus_zero_dec a) as [Ha|Ha].
    - unfold c; rewrite (Heq Ha), Ha; reflexivity.
    - unfold c; rewrite (Hne Ha), FloatAxioms.opp_spec.
      destruct (Prim2SF a) as [[|]| | |] eqn:Hp; try reflexivity.
      exfalso; apply Ha, Prim2SF_inj; rewrite Hp; reflexivity. }
  rewrite Hc, linear_root_spec by apply Prim2SF_valid.
  unfold f64_same; rewrite !f64_is_zero_spec.
  split.
  - intros [[Heq _]|Hzero]; [left; apply Prim2SF_inj; exact Heq | right; exact Hzero].
  - intros [->|Hzero]; [|right; exact Hzero].
    unfold f64_finite in Hfin.
    destruct (Prim2SF a) as [s|s| |s m e] eqn:Hp; try discriminate.
    + right; split; reflexivity.
    + left; split; [reflexivity | exists s, m, e; reflexivity].
Qed.

(** ** The coefficients and the recursion of the specification *)

Section SpecifiedRecursion.

Context {C : Type} `{RecursionLaws C} {M : Memory C}.

Lemma Sigma_ext (lo hi : Z) (f g : Z -> C) :
  (forall k, lo <= k <= hi -> f k = g k) -> Sigma lo hi f = Sigma lo hi g.
Proof.
  intros Hfg; unfold Sigma.
  rewrite !fold_left_map_fused.
  apply fold_left_ext_in; intros k Hk acc.
  apply py_range_In in Hk; rewrite Hfg by lia; reflexivity.
Qed.

(** The values of [c_n_m] obey the recursion, in the shape the specification
    gives it. *)
Lemma coef_recursion (n : Z) (vec : list C) (m : Z) :
  1 <= m <= Z.of_nat (length vec) ->
  coef n vec m =
  s_mul (s_neg (s_div s_one (s_of_int m)))
        (Sigma 1 m (fun k => s_mul (coef n vec (m - k)) (trace_at vec k))).
Proof.
  intros Hm; rewrite coef_equation by exact Hm.
  rewrite r_div_neg1, r_mul_comm; f_equal.
  unfold Sigma; rewrite fold_left_map_fused; reflexivity.
Qed.

(** The recursion has one solution on [0..d]. *)
Lemma auxiliary_unique (n d : Z) (vec : list C) (auxiliary : Z -> C) :
  d <= Z.of_nat (length vec) ->
  is_auxiliary d vec auxiliary ->
  forall m, 0 <= m -> m <= d -> auxiliary m = coef n vec m.
Proof.
  intros Hd [Haux0 Hrec] m Hm; revert m Hm.
  apply (Zlt_0_ind (fun m => m <= d -> auxiliary m = coef n vec m)).
  intros m IH Hm Hmd.
  destruct (Z.eq_dec m 0) as [->|Hm0]; [exact Haux0|].
  rewrite Hrec, coef_recursion by lia; f_equal.
  apply Sigma_ext; intros k Hk.
  rewrite IH by lia; reflexivity.
Qed.

End SpecifiedRecursion.

(** ** Exact arithmetic *)


Section ExactRecursion.

Context {C : Type} `{FieldLaws C} {M : Memory C}.

Lemma scalar_ring_theory :
  ring_theory (s_of_int 0) s_one s_add s_mul
              (fun x y => s_add x (s_neg y)) s_neg (@eq C).
Proof.
  constructor; intros.
  - apply s_add_0_l.
  - apply s_add_comm.
  - apply s_add_assoc.
  - apply s_mul_1_l.
  - apply s_mul_comm.
  - apply s_mul_assoc.
  - apply s_distr_r.
  - reflexivity.
  - apply s_add_neg_r.
Qed.

Add Ring scalar_ring : scalar_ring_theory.

Lemma s_of_int_minus_1 : s_of_int (-1) = s_neg s_one.
Proof.
  assert (Hsum : s_add (s_of_int (-1)) s_one = s_of_int 0)
    by (rewrite <- s_of_int_1, <- s_of_int_add; reflexivity).
  transitivity (s_add (s_add (s_of_int (-1)) s_one) (s_neg s_one)); [ring|].
  rewrite Hsum; ring.
Qed.

Lemma s_div_neg1 (y : C) : s_div (s_of_int (-1)) y = s_neg (s_div s_one y).
Proof. rewrite s_div_def, s_of_int_minus_1; ring. Qed.

Lemma FieldLaws_recursion : RecursionLaws C.
Proof. split; [apply s_mul_comm | apply s_div_neg1]. Qed.

Lemma s_div_1_1 : s_div s_one (s_of_int 1) = s_one.
Proof.
  rewrite <- (s_mul_1_l (s_div s_one (s_of_int 1))).
  rewrite <- s_of_int_1 at 1; apply s_of_int_inv; discriminate.
Qed.

Lemma coef_one (n : Z) (t0 : C) (rest : list C) :
  coef n (t0 :: rest) 1 = s_neg t0.
Proof.
  rewrite coef_equation by (simpl length; lia).
  change (py_range 1 (1 + 1)) with [1]; simpl; unfold term.
  change (1 - 1) with 0; rewrite coef_zero.
  change (trace_at (t0 :: rest) 1) with t0.
  rewrite s_div_neg1, s_div_1_1; ring.
Qed.

(** The polynomial [x - a] vanishes at [a] only. *)
Lemma linear_root (a x : C) :
  is_root (poly [s_one; s_neg a]) x <-> x = a.
Proof.
  unfold is_root, poly; simpl; split.
  - intros Hroot.
    transitivity
      (s_add (s_add (s_neg a)
                (s_mul x (s_add s_one (s_mul x (s_of_int 0))))) a); [ring|].
    rewrite Hroot; ring.
  - intros ->; ring.
Qed.

End ExactRecursion.

#[export] Existing Instance FieldLaws_recursion.

(** ** Claims on [c_n_m] and [compute_coefs] *)

(** C1: for [d >= 1] and at least [d] traces, [compute_coefs(d, traces)]
    returns [d+1] entries, entry 0 is exactly 1, the entries obey the recursion
    [auxiliary(0) = 1],
    [auxiliary(m) = -(1/m) * sum for k = 1..m of auxiliary(m-k) * traces[k-1]],
    and entry [m] is the value at [m] of every function that obeys it. *)
Theorem compute_coefs_meets_recursion {C : Type} `{RecursionLaws C} {M : Memory C}
        (d : Z) (traces : list C) :
  1 <= d -> d <= Z.of_nat (length traces) ->
  exists cs,
    compute_coefs d traces = Ok cs /\
    length cs = Z.to_nat (d + 1) /\
    nth_error cs 0 = Some s_one /\
    is_auxiliary d traces (fun m => nth (Z.to_nat m) cs (s_of_int 0)) /\
    forall auxiliary, is_auxiliary d traces auxiliary ->
      forall m, 1 <= m <= d -> nth_error cs (Z.to_nat m) = Some (auxiliary m).
Proof.
  intros Hd Hlen.
  exists (s_one :: map (coef d traces) (py_range 1 (d + 1))).
  assert (Hentry : forall m, 0 <= m <= d ->
            nth (Z.to_nat m) (s_one :: map (coef d traces) (py_range 1 (d + 1)))
                (s_of_int 0) = coef d traces m).
  { intros m Hm; destruct (Z.eq_dec m 0) as [->|Hm0]; [reflexivity|].
    apply nth_error_nth, coefs_nth_error; lia. }
  split; [apply compute_coefs_returns; exact Hlen|].
  split; [simpl; rewrite length_map, py_range_length; lia|].
  split; [reflexivity|].
  split; [split|].
  - reflexivity.
  - intros m Hm; rewrite Hentry by lia.
    rewrite coef_recursion by lia; f_equal.
    apply Sigma_ext; intros k Hk.
    rewrite Hentry by lia; reflexivity.
  - intros auxiliary Haux m Hm.
    rewrite coefs_nth_error by exact Hm.
    rewrite (auxiliary_unique d d traces auxiliary Hlen Haux) by lia.
    reflexivity.
Qed.

Lemma compute_coefs_meets_recursion_witness :
  exists cs,
    compute_coefs (M := holding 0%float) 4 scenario_traces = Ok cs /\
    length cs = 5%nat /\
    nth_error cs 0 = Some 1%float /\
    is_auxiliary 4 scenario_traces (fun m => nth (Z.to_nat m) cs 0%float) /\
    forall auxiliary, is_auxiliary 4 scenario_traces auxiliary ->
      forall m, 1 <= m <= 4 -> nth_error cs (Z.to_nat m) = Some (auxiliary m).
Proof.
  refine (compute_coefs_meets_recursion 4 scenario_traces _ _); simpl; lia.
Defined.

(** C9: the result of [c_n_m(n, m, vec_of_traces)] does not depend on its
    first argument [n]. *)
Theorem c_n_m_ignores_n {C : Type} `{Scalar C} {M : Memory C} (n n' m : Z) (vec_of_traces : list C) :
  0 <= m -> c_n_m n m vec_of_traces = c_n_m n' m vec_of_traces.
Proof.
  intros _; unfold c_n_m; apply c_n_m_fuel_n_irrelevant.
Qed.

Lemma c_n_m_ignores_n_witness :
  c_n_m (M := holding 0%float) 4 2 [1%float; 0.4372%float] = c_n_m (M := holding 0%float) 9 2 [1%float; 0.4372%float].
Proof.
  apply (c_n_m_ignores_n 4 9 2 [1%float; 0.4372%float]); lia.
Defined.

(** What the call at [m = 1] computes in binary64. *)
Lemma c_n_m_one_binary64 {M : Memory float} (n : Z) (t : float)
      (rest : list float) :
  c_n_m n 1 (t :: rest) = Ok ((0 + 1 * t) * (-1))%float.
Proof. reflexivity. Qed.

(** C10: for [d >= 1] and a trace vector with a first entry [traces[0]],
    [compute_coefs] returns a vector whose entry 1 is the negation of
    [traces[0]].  In binary64, the numbers the code computes with, the two
    are the same number for every [traces[0]], infinities and NaN included;
    they are the same bit for bit but for [traces[0] = -0.0], where entry 1
    is [-0.0] and the negation [+0.0]; for [traces[0] = 1.0] entry 1 is
    exactly [-1.0].  In exact arithmetic entry 1 is the negation of
    [traces[0]].  The vector is returned whatever the number of traces. *)
Theorem coefficient_1_is_minus_trace :
  (forall (M : Memory float) (d : Z) (t0 : float) (rest : list float),
      1 <= d ->
      exists cs c1,
        compute_coefs d (t0 :: rest) = Ok cs /\
        nth_error cs 1 = Some c1 /\
        f64_same c1 (- t0)%float /\
        (t0 <> (-0)%float -> c1 = (- t0)%float) /\
        (t0 = (-0)%float -> c1 = (-0)%float) /\
        (t0 = 1%float -> c1 = (-1)%float)) /\
  (forall (C : Type) (S : Scalar C) (F : FieldLaws C) (M : Memory C)
          (d : Z) (t0 : C) (rest : list C),
      1 <= d ->
      exists cs,
        compute_coefs d (t0 :: rest) = Ok cs /\
        nth_error cs 1 = Some (s_neg t0)).
Proof.
  split.
  - intros M d t0 rest Hd.
    exists (s_one :: map (coef d (t0 :: rest)) (py_range 1 (d + 1))),
           ((0 + 1 * t0) * (-1))%float.
    split; [apply compute_coefs_always_returns|].
    split.
    { rewrite (coefs_nth_error d (t0 :: rest) 1) by lia.
      unfold coef; rewrite c_n_m_one_binary64; reflexivity. }
    split; [apply first_coefficient_same|].
    split; [apply first_coefficient_binary64|].
    split; [apply first_coefficient_binary64|].
    intros ->; reflexivity.
  - intros C S F M d t0 rest Hd.
    eexists; split; [apply compute_coefs_always_returns|].
    rewrite <- (coef_one d t0 rest).
    apply (coefs_nth_error d (t0 :: rest) 1); lia.
Qed.

Lemma coefficient_1_is_minus_trace_witness :
  (exists cs c1,
      compute_coefs (M := holding 0%float) 2 [(-0)%float; 3%float] = Ok cs /\
      nth_error cs 1 = Some c1 /\
      f64_same c1 (- (-0))%float /\
      ((-0)%float <> (-0)%float -> c1 = (- (-0))%float) /\
      ((-0)%float = (-0)%float -> c1 = (-0)%float) /\
      ((-0)%float = 1%float -> c1 = (-1)%float)) /\
  (exists cs,
      compute_coefs (M := holding 0%R) 2 [1%R; 3%R] = Ok cs /\
      nth_error cs 1 = Some (Ropp 1)).
Proof.
  split.
  - refine (proj1 coefficient_1_is_minus_trace (holding 0%float) 2
              (-0)%float [3%float] _); lia.
  - refine (proj2 coefficient_1_is_minus_trace R _ _ (holding 0%R) 2
              1%R [3%R] _); lia.
Defined.

(** In binary64 a unit first trace gives the coefficient [-1.0], with no
    rounding. *)
Lemma unit_trace_coefficient_binary64 {M : Memory float} (n : Z)
      (rest : list float) :
  c_n_m n 1 (1%float :: rest) = Ok (-1)%float.
Proof. reflexivity. Qed.

(** For a matrix of unit trace, computed in binary64: entry 1 of the vector
    [compute_coefs] returns is exactly [-1.0], and the vector is returned as
    soon as there are [d] traces. *)
Theorem unit_trace_gives_minus_one {M : Memory float} (d : Z)
        (rest : list float) :
  1 <= d ->
  (forall cs, compute_coefs d (1%float :: rest) = Ok cs ->
              nth_error cs 1 = Some (-1)%float) /\
  (d <= Z.of_nat (length (1%float :: rest)) ->
   exists cs, compute_coefs d (1%float :: rest) = Ok cs /\
              nth_error cs 1 = Some (-1)%float).
Proof.
  intros Hd.
  assert (Hret : d <= Z.of_nat (length (1%float :: rest)) ->
                 exists cs, compute_coefs d (1%float :: rest) = Ok cs /\
                            nth_error cs 1 = Some (-1)%float).
  { intros Hlen; eexists; split; [apply compute_coefs_returns; exact Hlen|].
    rewrite (coefs_nth_error d (1%float :: rest) 1) by lia.
    unfold coef; rewrite unit_trace_coefficient_binary64; reflexivity. }
  split; [|exact Hret].
  intros cs Hcs.
  assert (Hone : coef d (1%float :: rest) 1 = (-1)%float)
    by (unfold coef; rewrite unit_trace_coefficient_binary64; reflexivity).
  rewrite <- Hone.
  apply (compute_coefs_entry d (1%float :: rest) cs 1); [lia | exact Hcs].
Qed.

Lemma unit_trace_gives_minus_one_witness :
  (forall cs, compute_coefs (M := holding 0%float) 4 scenario_traces = Ok cs ->
              nth_error cs 1 = Some (-1)%float) /\
  (exists cs, compute_coefs (M := holding 0%float) 4 scenario_traces = Ok cs /\
              nth_error cs 1 = Some (-1)%float).
Proof.
  split.
  - refine (proj1 (unit_trace_gives_minus_one 4
                     [0.4372%float; 0.2299%float; 0.1290%float] _)); lia.
  - refine (proj2 (unit_trace_gives_minus_one 4
                     [0.4372%float; 0.2299%float; 0.1290%float] _) _);
      simpl; lia.
Defined.

(** C7, as the code has it: [compute_coefs] checks nothing at its start and
    raises nothing.  For [d < 1] it returns the one-entry vector [[1.]].  For
    [d >= 1] and fewer than [d] traces the loads of the compiled code run past
    the end of the array: the call returns [d + 1] numbers, which are the
    coefficients of the [d] scalars made of the traces and of what the memory
    holds behind them. *)
Theorem compute_coefs_without_dimension_check {C : Type} `{Scalar C} {M : Memory C}
        (d : Z) (traces : list C) :
  (d < 1 -> compute_coefs d traces = Ok [s_one]) /\
  (1 <= d -> Z.of_nat (length traces) < d ->
   exists cs,
     compute_coefs d traces = Ok cs /\
     length cs = Z.to_nat (d + 1) /\
     Z.of_nat (length (seen_upto d traces)) = d /\
     forall M' : Memory C,
       compute_coefs (M := M') d (seen_upto (M := M) d traces) = Ok cs).
Proof.
  split.
  - apply compute_coefs_nonpositive.
  - intros Hd Hshort.
    destruct (compute_coefs_past_end d traces) as (cs & Hcs & Hlen & _ & Hmem).
    exists cs; split; [exact Hcs|].
    split; [rewrite Hlen; lia|].
    split; [rewrite length_seen_upto; lia | exact Hmem].
Qed.

Lemma compute_coefs_without_dimension_check_witness :
  compute_coefs (M := holding 0%float) 0 [0.5%float] = Ok [1%float] /\
  exists cs,
    compute_coefs (M := holding 0%float) 2 [0.5%float] = Ok cs /\
    length cs = 3%nat /\
    Z.of_nat (length (seen_upto (M := holding 0%float) 2 [0.5%float])) = 2 /\
    forall M' : Memory float,
      compute_coefs (M := M') 2 (seen_upto (M := holding 0%float) 2 [0.5%float])
      = Ok cs.
Proof.
  split.
  - refine (proj1 (compute_coefs_without_dimension_check 0 [0.5%float]) _); lia.
  - refine (proj2 (compute_coefs_without_dimension_check 2 [0.5%float]) _ _);
      simpl; lia.
Defined.

(** With one trace and [d = 2] the second coefficient is computed from the
    scalar behind the trace: [0.125] when the memory holds [0.0] there,
    [-0.375] when it holds [1.0]. *)
Lemma compute_coefs_reads_behind_the_traces :
  compute_coefs (M := holding 0%float) 2 [0.5%float]
  = Ok [1%float; (-0.5)%float; 0.125%float] /\
  compute_coefs (M := holding 1%float) 2 [0.5%float]
  = Ok [1%float; (-0.5)%float; (-0.375)%float].
Proof. split; vm_compute; reflexivity. Qed.

(** C7 as stated fails: with [d = 0] the call returns [[1.]] and raises
    nothing. *)
Lemma compute_coefs_accepts_d_zero :
  compute_coefs (M := holding 0%float) 0 ([] : list float) = Ok [1%float] /\
  ~ (forall (M : Memory float) (d : Z) (traces : list float),
        d < 1 \/ Z.of_nat (length traces) < d ->
        exists e, compute_coefs d traces = Raise e).
Proof.
  split; [reflexivity|].
  intros Hclaim.
  destruct (Hclaim (holding 0%float) 0 []) as [e He]; [left; lia|].
  discriminate He.
Qed.

(** ** The traces of the powers *)

Section Traces.

Context {C : Type} `{Scalar C}.

Lemma np_matrix_power_square (a : matrix C) (i : Z) :
  is_square a = true -> 0 <= i ->
  np_matrix_power a (Z.to_pos (i + 1)) = Ok (powered a (Z.to_nat i)).
Proof.
  intros Hsq Hi; unfold np_matrix_power; rewrite Hsq.
  do 2 f_equal; lia.
Qed.

(** On a square matrix every pass succeeds. *)
Lemma get_traces_square (rho : matrix C) :
  is_square rho = true ->
  get_traces rho =
  Ok (map (fun i => np_trace (powered rho (Z.to_nat i))) (py_range 0 (shape0 rho))).
Proof.
  intros Hsq; unfold get_traces.
  rewrite (for_each_fold _ _
             (fun traces i => traces ++ [np_trace (powered rho (Z.to_nat i))])).
  - rewrite fold_left_snoc_map; reflexivity.
  - intros i Hi traces; apply py_range_In in Hi.
    rewrite np_matrix_power_square by (assumption || lia); reflexivity.
Qed.

(** A matrix that is not square and has a row: the first pass of the loop
    hands it to [matrix_power], which refuses it. *)
Lemma get_traces_not_square (rho : matrix C) :
  is_square rho = false -> 0 < shape0 rho ->
  get_traces rho = Raise LinAlgError.
Proof.
  intros Hsq Hrows; unfold get_traces.
  rewrite py_range_cons by lia; simpl for_each.
  unfold np_matrix_power; rewrite Hsq; reflexivity.
Qed.

(** A matrix with no rows: the loop makes no pass, [matrix_power] is not
    called, and the empty vector is returned. *)
Lemma get_traces_no_rows (rho : matrix C) :
  shape0 rho = 0 -> get_traces rho = Ok [].
Proof.
  intros Hrows; unfold get_traces; rewrite Hrows; reflexivity.
Qed.

Lemma length_get_traces (rho : matrix C) (traces : list C) :
  get_traces rho = Ok traces -> Z.of_nat (length traces) = shape0 rho.
Proof.
  destruct (is_square rho) eqn:Hsq.
  - rewrite get_traces_square by exact Hsq; intros Heq; injection Heq as <-.
    rewrite length_map, py_range_length; unfold shape0; lia.
  - destruct (Z.eq_dec (shape0 rho) 0) as [Hrows|Hrows].
    + rewrite get_traces_no_rows by exact Hrows; intros Heq; injection Heq as <-.
      rewrite Hrows; reflexivity.
    + rewrite get_traces_not_square by (unfold shape0 in *; lia || exact Hsq).
      discriminate.
Qed.

End Traces.

(** C2: for a square matrix [A] of side [d >= 1], [get_traces] returns [d]
    entries, and the [i]-th of them (counted from 1) is the trace of the
    [i]-th power of [A]. *)
Theorem get_traces_trace_of_powers {C : Type} `{Scalar C} (A : matrix C) (d : Z) :
  is_square A = true -> shape0 A = d -> 1 <= d ->
  exists traces,
    get_traces A = Ok traces /\
    length traces = Z.to_nat d /\
    forall i, 1 <= i <= d ->
      exists P, np_matrix_power A (Z.to_pos i) = Ok P /\
                nth_error traces (Z.to_nat (i - 1)) = Some (np_trace P).
Proof.
  intros Hsq Hshape Hd.
  eexists; split; [apply get_traces_square; exact Hsq|].
  split; [rewrite length_map, py_range_length, Hshape; f_equal; lia|].
  intros i Hi.
  exists (powered A (Z.to_nat (i - 1))); split.
  - replace i with (i - 1 + 1) at 1 by lia.
    apply np_matrix_power_square; [exact Hsq | lia].
  - rewrite nth_error_map, py_range_nth_error by lia; simpl.
    rewrite Nat2Z.id; reflexivity.
Qed.

Lemma get_traces_trace_of_powers_witness :
  exists traces,
    get_traces (Matrix [[0.5%float; 0.25%float]; [0.25%float; 0.5%float]] 2)
    = Ok traces /\
    length traces = 2%nat /\
    forall i, 1 <= i <= 2 ->
      exists P,
        np_matrix_power
          (Matrix [[0.5%float; 0.25%float]; [0.25%float; 0.5%float]] 2)
          (Z.to_pos i) = Ok P /\
        nth_error traces (Z.to_nat (i - 1)) = Some (np_trace P).
Proof.
  refine (get_traces_trace_of_powers
            (Matrix [[0.5%float; 0.25%float]; [0.25%float; 0.5%float]] 2) 2 _ _ _);
    [reflexivity | reflexivity | lia].
Defined.

(** C6, as the code has it: [get_traces] takes the matrix alone and checks no
    dimension.  On a square matrix it returns one trace for each row.  On a
    matrix that is not square and has a row it fails with the error
    [matrix_power] raises in the first pass of the loop.  On a matrix with no
    rows, of shape (0, n), the loop makes no pass: the empty vector is
    returned and nothing is raised, though the matrix is not square when
    [n] is not 0. *)
Theorem get_traces_without_dimension_check {C : Type} `{Scalar C} (A : matrix C) :
  (is_square A = true ->
   exists traces, get_traces A = Ok traces /\
                  Z.of_nat (length traces) = shape0 A) /\
  (is_square A = false -> 0 < shape0 A -> get_traces A = Raise LinAlgError) /\
  (shape0 A = 0 -> get_traces A = Ok []).
Proof.
  split; [|split].
  - intros Hsq; eexists; split; [apply get_traces_square; exact Hsq|].
    rewrite length_map, py_range_length; unfold shape0; lia.
  - apply get_traces_not_square.
  - apply get_traces_no_rows.
Qed.

Lemma get_traces_without_dimension_check_witness :
  (exists traces, get_traces (Matrix [[0.5%float]] 1) = Ok traces /\
                  Z.of_nat (length traces) = shape0 (Matrix [[0.5%float]] 1)) /\
  get_traces (Matrix [[0.5%float; 0.25%float]] 2) = Raise LinAlgError /\
  get_traces (Matrix ([] : list (list float)) 3) = Ok [].
Proof.
  split; [|split].
  - refine (proj1 (get_traces_without_dimension_check (Matrix [[0.5%float]] 1)) _);
      reflexivity.
  - refine (proj1 (proj2 (get_traces_without_dimension_check
                            (Matrix [[0.5%float; 0.25%float]] 2))) _ _);
      [reflexivity | unfold shape0; simpl; lia].
  - refine (proj2 (proj2 (get_traces_without_dimension_check
                            (Matrix ([] : list (list float)) 3))) _);
      reflexivity.
Defined.

(** C6 as stated fails: an array of shape (0, 3) is not square, and
    [get_traces] returns the empty vector for it without any error. *)
Lemma get_traces_accepts_empty_not_square :
  is_square (Matrix ([] : list (list float)) 3) = false /\
  get_traces (Matrix ([] : list (list float)) 3) = Ok [] /\
  ~ (forall A : matrix float,
        is_square A = false -> exists e, get_traces A = Raise e).
Proof.
  split; [reflexivity|].
  split; [reflexivity|].
  intros Hclaim.
  destruct (Hclaim (Matrix [] 3)) as [e He]; [reflexivity|].
  discriminate He.
Qed.

(** C8: for a 1x1 matrix [[a]] and [d = 1], the trace vector is [[a]], the
    coefficient vector is [[1, -a]], and [a] is the one root of the
    polynomial.  In binary64, the numbers the code computes with: the trace
    vector is [[a]] bit for bit; the coefficient vector is [[1, c]] with [c]
    the same number as [-a] for every [a], and the same bit for bit but for
    [a = -0.0], where [c] is [-0.0]; for a finite [a] the polynomial
    evaluates to a zero at [x] exactly when [x] is the same number as [a].
    In exact arithmetic the three statements hold with equality. *)
Theorem dimension_one :
  (forall (M : Memory float) (a : float),
      get_traces (Matrix [[a]] 1) = Ok [a] /\
      exists c,
        compute_coefs 1 [a] = Ok [1%float; c] /\
        f64_same c (- a)%float /\
        (a <> (-0)%float -> c = (- a)%float) /\
        (a = (-0)%float -> c = (-0)%float) /\
        (f64_finite a = true ->
         forall x, f64_root (poly [1%float; c]) x <-> f64_same x a)) /\
  (forall (C : Type) (S : Scalar C) (F : FieldLaws C) (M : Memory C) (a : C),
      get_traces (Matrix [[a]] 1) = Ok [a] /\
      compute_coefs 1 [a] = Ok [s_one; s_neg a] /\
      forall x, is_root (poly [s_one; s_neg a]) x <-> x = a).
Proof.
  split.
  - intros M a; split; [reflexivity|].
    exists ((0 + 1 * a) * (-1))%float.
    split; [reflexivity|].
    split; [apply first_coefficient_same|].
    split; [apply first_coefficient_binary64|].
    split; [apply first_coefficient_binary64|].
    intros Hfin x; apply (linear_root_binary64 a x Hfin).
  - intros C S F M a; split; [reflexivity|].
    split.
    + rewrite compute_coefs_returns by (simpl; lia).
      change (py_range 1 (1 + 1)) with [1]; simpl.
      rewrite coef_one; reflexivity.
    + apply linear_root.
Qed.

Lemma dimension_one_witness :
  (get_traces (Matrix [[0.5%float]] 1) = Ok [0.5%float] /\
   exists c,
     compute_coefs (M := holding 0%float) 1 [0.5%float] = Ok [1%float; c] /\
     f64_same c (- 0.5)%float /\
     (0.5%float <> (-0)%float -> c = (- 0.5)%float) /\
     (0.5%float = (-0)%float -> c = (-0)%float) /\
     (f64_finite 0.5%float = true ->
      forall x, f64_root (poly [1%float; c]) x <-> f64_same x 0.5%float)) /\
  (get_traces (Matrix [[2%R]] 1) = Ok [2%R] /\
   compute_coefs (M := holding 0%R) 1 [2%R] = Ok [1%R; Ropp 2] /\
   forall x, is_root (poly [1%R; Ropp 2]) x <-> x = 2%R).
Proof.
  split.
  - exact (proj1 dimension_one (holding 0%float) 0.5%float).
  - exact (proj2 dimension_one R _ _ (holding 0%R) 2%R).
Defined.

(** ** Caching *)

Lemma getitem_app_left {A : Type} (v : list A) (a : A) (i : Z) :
  0 <= i < Z.of_nat (length v) -> getitem (v ++ [a]) i = getitem v i.
Proof.
  intros Hi.
  destruct (getitem_in_range v i Hi) as (x & Hx & Hnth).
  destruct (getitem_in_range (v ++ [a]) i) as (y & Hy & Hnth').
  { rewrite length_app; simpl; lia. }
  rewrite nth_error_app1 in Hnth' by lia.
  congruence.
Qed.

Lemma getitem_app_last {A : Type} (v : list A) (a : A) :
  getitem (v ++ [a]) (Z.of_nat (length v)) = Ok a.
Proof.
  destruct (getitem_in_range (v ++ [a]) (Z.of_nat (length v))) as (y & Hy & Hnth).
  { rewrite length_app; simpl; lia. }
  rewrite Nat2Z.id, nth_error_app2, Nat.sub_diag in Hnth by lia.
  simpl in Hnth; congruence.
Qed.

Section Caching.

Context {C : Type} `{Scalar C} {M : Memory C}.

(** Reading the table in place of calling gives the entry [c_n_m] computes. *)
Lemma table_entry (n : Z) (vec table : list C) (m : Z) :
  1 <= m -> table_upto n vec m table ->
  (suma <- for_each (py_range 1 (m + 1))
             (c_n_m_step (getitem table) m vec) (s_of_int 0) ;;
   Ok (table ++ [s_mul suma (s_div (s_of_int (-1)) (s_of_int m))]))
  = (c <- c_n_m n m vec ;; Ok (table ++ [c])).
Proof.
  intros Hm [_ Htab]; rewrite c_n_m_unfold.
  destruct (Z.eqb_spec m 0); [lia|].
  rewrite (for_each_ext _ _ (c_n_m_step (fun j => c_n_m n j vec) m vec)).
  - destruct (for_each _ _ _); reflexivity.
  - intros k Hk suma; apply py_range_In in Hk.
    unfold c_n_m_step; rewrite Htab by lia; reflexivity.
Qed.

Lemma table_upto_snoc (n : Z) (vec table : list C) (m : Z) (c : C) :
  table_upto n vec m table -> c_n_m n m vec = Ok c ->
  table_upto n vec (m + 1) (table ++ [c]).
Proof.
  intros [Hlen Htab] Hc; split.
  - rewrite length_app; simpl; lia.
  - intros i Hi; destruct (Z.eq_dec i m) as [->|Hne].
    + rewrite Hc, <- Hlen; apply getitem_app_last.
    + rewrite getitem_app_left by lia; apply Htab; lia.
Qed.

Lemma table_loop (n : Z) (vec : list C) (r : nat) :
  forall (j : Z) (table : list C),
    1 <= j -> table_upto n vec j table ->
    for_each (py_range j (j + Z.of_nat r))
      (fun m table =>
         suma <- for_each (py_range 1 (m + 1))
                   (c_n_m_step (getitem table) m vec) (s_of_int 0) ;;
         Ok (table ++ [s_mul suma (s_div (s_of_int (-1)) (s_of_int m))]))
      table
    = for_each (py_range j (j + Z.of_nat r))
        (fun m c_list => c <- c_n_m n m vec ;; Ok (c_list ++ [c]))
        table.
Proof.
  induction r as [|r IH]; intros j table Hj Htab.
  - rewrite py_range_empty by lia; reflexivity.
  - replace (j + Z.of_nat (S r)) with (j + 1 + Z.of_nat r) by lia.
    rewrite py_range_cons by lia; cbn [for_each].
    rewrite (table_entry n vec table j Hj Htab).
    destruct (c_n_m n j vec) as [c|e] eqn:Hc; cbn [bind]; [|reflexivity].
    apply IH; [lia|].
    apply table_upto_snoc; assumption.
Qed.

(** The table gives what the recursion gives. *)
Lemma compute_coefs_table_correct (d : Z) (vec : list C) :
  compute_coefs_table d vec = compute_coefs d vec.
Proof.
  unfold compute_coefs_table, compute_coefs.
  destruct (Z_lt_le_dec d 1) as [Hd|Hd].
  - rewrite py_range_empty by lia; reflexivity.
  - replace (d + 1) with (1 + Z.of_nat (Z.to_nat d)) by lia.
    apply table_loop; [lia|].
    split; [reflexivity|].
    intros i Hi; replace i with 0 by lia; reflexivity.
Qed.

(** *** The log *)

Lemma for_each_log_value {A S : Type} (xs : list A)
      (body : A -> S -> result S * list Z) (s : S) :
  fst (for_each_log xs body s) = for_each xs (fun x s => fst (body x s)) s.
Proof.
  revert s; induction xs as [|x xs IH]; intros s; simpl; [reflexivity|].
  destruct (body x s) as [[s'|e] l]; simpl; [|reflexivity].
  rewrite <- IH; destruct (for_each_log xs body s'); reflexivity.
Qed.

Lemma for_each_log_all_ok {A S : Type} (xs : list A)
      (body : A -> S -> result S * list Z) (f : S -> A -> S) (g : A -> list Z) :
  (forall x, In x xs -> forall s, body x s = (Ok (f s x), g x)) ->
  forall s, for_each_log xs body s = (Ok (fold_left f xs s), concat (map g xs)).
Proof.
  induction xs as [|x xs IH]; intros Hb s; simpl; [reflexivity|].
  rewrite (Hb x (or_introl eq_refl) s).
  rewrite IH by (intros y Hy; apply Hb; right; exact Hy); reflexivity.
Qed.

(** The logged evaluation computes what [c_n_m] computes. *)
Lemma c_n_m_log_value (fuel : nat) (n m : Z) (vec : list C) :
  fst (c_n_m_log fuel n m vec) = c_n_m_fuel fuel n m vec.
Proof.
  revert m; induction fuel as [|fuel IH]; intros m; simpl; [reflexivity|].
  destruct (m =? 0); [reflexivity|].
  match goal with |- fst (let (r, l) := ?X in _) = _ =>
    rewrite (surjective_pairing X) end; simpl.
  rewrite for_each_log_value; f_equal.
  apply for_each_ext; intros k _ suma.
  unfold c_n_m_step; rewrite <- IH.
  destruct (c_n_m_log fuel n (m - k) vec); reflexivity.
Qed.

Lemma compute_coefs_log_value (d : Z) (vec : list C) :
  fst (compute_coefs_log d vec) = compute_coefs d vec.
Proof.
  unfold compute_coefs_log, compute_coefs.
  rewrite for_each_log_value.
  apply for_each_ext; intros m _ c_list.
  unfold c_n_m; rewrite <- c_n_m_log_value.
  destruct (c_n_m_log _ d m vec); reflexivity.
Qed.

End Caching.

(** ** How many calls the recursion makes *)

Lemma py_range_shift (lo hi : Z) :
  py_range (lo + 1) (hi + 1) = map (fun k => k + 1) (py_range lo hi).
Proof.
  unfold py_range; rewrite map_map.
  replace (hi + 1 - (lo + 1)) with (hi - lo) by lia.
  apply map_ext; intros i; lia.
Qed.

Lemma sum_of_halves (m : Z) :
  0 <= m ->
  (list_sum (map (fun k => 2 ^ Z.to_nat (m - k)) (py_range 1 (m + 1)))
   = 2 ^ Z.to_nat m - 1)%nat.
Proof.
  revert m; apply natlike_ind.
  - reflexivity.
  - intros m Hm IH; unfold Z.succ.
    rewrite py_range_cons by lia; cbn [map list_sum].
    rewrite py_range_shift, map_map.
    rewrite (map_ext _ (fun k => (2 ^ Z.to_nat (m - k))%nat))
      by (intros k; do 2 f_equal; lia).
    change (list_sum (?a :: ?l)) with (a + list_sum l)%nat.
    rewrite IH.
    replace (m + 1 - 1) with m by lia.
    replace (Z.to_nat (m + 1)) with (S (Z.to_nat m)) by lia.
    rewrite Nat.pow_succ_r'.
    assert (0 < 2 ^ Z.to_nat m)%nat by (apply Nat.neq_0_lt_0, Nat.pow_nonzero; lia).
    lia.
Qed.

Section Calls.

Context {C : Type} `{Scalar C} {M : Memory C}.

(** A call at [m] enters [c_n_m] [2^m] times: itself, and the calls of
    [c_n_m(n, m-1)], ..., [c_n_m(n, 0)], none of which is remembered. *)
Lemma c_n_m_log_length (n : Z) (vec : list C) (m : Z) :
  0 <= m -> m <= Z.of_nat (length vec) ->
  forall fuel, (Z.to_nat m < fuel)%nat ->
    fst (c_n_m_log fuel n m vec) = Ok (coef n vec m) /\
    length (snd (c_n_m_log fuel n m vec)) = (2 ^ Z.to_nat m)%nat.
Proof.
  intros Hm; revert m Hm.
  apply (Zlt_0_ind (fun m => m <= Z.of_nat (length vec) ->
    forall fuel, (Z.to_nat m < fuel)%nat ->
      fst (c_n_m_log fuel n m vec) = Ok (coef n vec m) /\
      length (snd (c_n_m_log fuel n m vec)) = (2 ^ Z.to_nat m)%nat)).
  intros m IH Hm Hlen fuel Hfuel.
  split.
  { rewrite c_n_m_log_value.
    rewrite (c_n_m_fuel_stable fuel (S (Z.to_nat m))) by lia.
    apply c_n_m_Ok_coef; lia. }
  destruct fuel as [|fuel]; [lia|]; simpl.
  destruct (Z.eqb_spec m 0) as [->|Hm0]; [reflexivity|].
  rewrite (for_each_log_all_ok _ _ (term n m vec)
             (fun k => snd (c_n_m_log fuel n (m - k) vec))).
  - simpl; rewrite length_concat, map_map.
    rewrite (map_ext_in _ (fun k => (2 ^ Z.to_nat (m - k))%nat)).
    + rewrite sum_of_halves by lia.
      assert (0 < 2 ^ Z.to_nat m)%nat by (apply Nat.neq_0_lt_0, Nat.pow_nonzero; lia).
      lia.
    + intros k Hk; apply py_range_In in Hk.
      apply (IH (m - k)); lia.
  - intros k Hk suma; apply py_range_In in Hk.
    destruct (IH (m - k)) with (fuel := fuel) as [Hval _]; [lia | lia | lia |].
    destruct (c_n_m_log fuel n (m - k) vec) as [rc lc]; simpl in *.
    rewrite Hval; simpl.
    rewrite load_trace_at by lia; reflexivity.
Qed.

End Calls.

(** C4, as the code has it: [compute_coefs] keeps no cache, [c_n_m] being
    plain recursion that enters [c_n_m] [2^m] times for a call at [m]; a table
    of [auxiliary(0)] to [auxiliary(d)] filled from the bottom gives the same
    result as that recursion, for every [d]. *)
Theorem memoization_preserves_values {C : Type} `{Scalar C} {M : Memory C}
        (d : Z) (traces : list C) :
  compute_coefs_table d traces = compute_coefs d traces /\
  fst (compute_coefs_log d traces) = compute_coefs d traces /\
  forall m, 0 <= m <= Z.of_nat (length traces) ->
    Z.of_nat (length (snd (c_n_m_log (S (Z.to_nat m)) d m traces))) = 2 ^ m.
Proof.
  split; [apply compute_coefs_table_correct|].
  split; [apply compute_coefs_log_value|].
  intros m Hm.
  destruct (c_n_m_log_length d traces m) with (fuel := S (Z.to_nat m))
    as [_ Hlen]; [lia | lia | lia |].
  rewrite Hlen, Nat2Z.inj_pow, Z2Nat.id by lia; reflexivity.
Qed.

(** C4 as stated fails: nothing is cached.  Computing the coefficients for
    [d = 2] enters [c_n_m] six times, three of them at [m = 0]. *)
Lemma compute_coefs_repeats_calls :
  snd (compute_coefs_log (M := holding 0%float) 2 [1%float; 0.4372%float])
  = [1; 0; 2; 1; 0; 0] /\
  ~ (forall (M : Memory float) (d : Z) (traces : list float),
        NoDup (snd (compute_coefs_log d traces))).
Proof.
  split; [reflexivity|].
  intros Hclaim.
  specialize (Hclaim (holding 0%float) 2 [1%float; 0.4372%float]).
  change (NoDup [1; 0; 2; 1; 0; 0]) in Hclaim.
  inversion Hclaim as [|x l Hnotin _]; subst.
  apply Hnotin; simpl; tauto.
Qed.

(** ** The scenario of the notebook *)

Lemma within_bounds (tol x y : R) :
  within tol x y -> (y - tol <= x <= y + tol)%R.
Proof.
  unfold within, Rabs; destruct (Rcase_abs (x - y)); lra.
Qed.

Lemma scenario_coefs_computed {M : Memory float} :
  compute_coefs 4 scenario_traces = Ok scenario_coefs.
Proof. vm_compute; reflexivity. Qed.

(** The exact values of the five binary64 coefficients. *)
Lemma scenario_coefs_exact :
  map f64_to_Q scenario_coefs =
  [1%Q; (-1)%Q;
   Qmake 2534625870284115 9007199254740992;
   Qmake (-444955643184205) 18014398509481984;
   Qmake 46331591814507 72057594037927936].
Proof. vm_compute; reflexivity. Qed.

Lemma scenario_poly_eq (x : R) :
  scenario_poly x =
  (46331591814507 / 72057594037927936
   + x * (- 444955643184205 / 18014398509481984
   + x * (2534625870284115 / 9007199254740992
   + x * (- 1 + x * (1 + x * 0)))))%R.
Proof.
  unfold scenario_poly, poly, f64_to_R.
  rewrite <- map_map, scenario_coefs_exact.
  unfold Q2R; simpl; lra.
Qed.

Lemma scenario_poly_continuous : continuity scenario_poly.
Proof.
  unfold scenario_poly, poly; simpl; unfold Scalar_R; simpl; reg.
Qed.

(** A change of sign between [a] and [b] encloses a root. *)
Lemma scenario_root_between (a b r tol : R) :
  (a <= b)%R -> (scenario_poly a * scenario_poly b <= 0)%R ->
  (r - tol <= a)%R -> (b <= r + tol)%R ->
  exists x, is_root (poly (map f64_to_R scenario_coefs)) x /\ within tol x r.
Proof.
  intros Hab Hsign Ha Hb.
  destruct (IVT_cor scenario_poly a b scenario_poly_continuous Hab Hsign)
    as (x & Hx & Hroot).
  exists x; split; [exact Hroot|].
  unfold within; apply Rabs_le; lra.
Qed.

Lemma scenario_poly_negative_near_0_0502 (x : R) :
  (0.0501 <= x <= 0.0503)%R -> (scenario_poly x < 0)%R.
Proof.
  intros Hx; rewrite scenario_poly_eq; nra.
Qed.

Lemma scenario_coefs_close :
  Forall2 (within (1 / 10000)) (map f64_to_R scenario_coefs) claimed_coefs.
Proof.
  unfold f64_to_R; rewrite <- map_map, scenario_coefs_exact.
  unfold claimed_coefs, within, Q2R; simpl.
  repeat (apply Forall2_cons; [apply Rabs_le; lra|]).
  apply Forall2_nil.
Qed.

(** C3, as the code has it: for the four-digit trace vector the coefficients
    are within 1e-4 of the quoted ones, and the polynomial has a root within
    3e-3 of each quoted eigenvalue; its roots are 0.0481, 0.0810, 0.2788 and
    0.5921 to within 1e-4. *)
Theorem scenario_roots_located {M : Memory float} :
  scenario_holds (1 / 10000) (3 / 1000) claimed_roots /\
  scenario_holds (1 / 10000) (1 / 10000) located_roots.
Proof.
  assert (Hloc : roots_within (1 / 10000)
                   (poly (map f64_to_R scenario_coefs)) located_roots).
  { unfold located_roots; repeat apply Forall_cons.
    - apply (scenario_root_between 0.0480 0.0482); try lra.
      rewrite !scenario_poly_eq; nra.
    - apply (scenario_root_between 0.0809 0.0811); try lra.
      rewrite !scenario_poly_eq; nra.
    - apply (scenario_root_between 0.2787 0.2789); try lra.
      rewrite !scenario_poly_eq; nra.
    - apply (scenario_root_between 0.5920 0.5922); try lra.
      rewrite !scenario_poly_eq; nra.
    - apply Forall_nil. }
  assert (Hclaimed : roots_within (3 / 1000)
                       (poly (map f64_to_R scenario_coefs)) claimed_roots).
  { unfold claimed_roots; repeat apply Forall_cons.
    - apply (scenario_root_between 0.0480 0.0482); try lra.
      rewrite !scenario_poly_eq; nra.
    - apply (scenario_root_between 0.0809 0.0811); try lra.
      rewrite !scenario_poly_eq; nra.
    - apply (scenario_root_between 0.2787 0.2789); try lra.
      rewrite !scenario_poly_eq; nra.
    - apply (scenario_root_between 0.5920 0.5922); try lra.
      rewrite !scenario_poly_eq; nra.
    - apply Forall_nil. }
  split; exists scenario_coefs;
    (split; [exact scenario_coefs_computed|]);
    (split; [reflexivity|]);
    (split; [exact scenario_coefs_close|]); assumption.
Qed.

(** C3 as stated fails: the polynomial has no root within 1e-4 of the quoted
    eigenvalue 0.0502, being negative from 0.0501 to 0.0503. *)
Lemma scenario_no_root_near_0_0502 :
  ~ exists M : Memory float,
      scenario_holds (M := M) (1 / 10000) (1 / 10000) claimed_roots.
Proof.
  intros (M & cs & Hcs & _ & _ & Hroots).
  rewrite scenario_coefs_computed in Hcs; injection Hcs as <-.
  inversion Hroots as [|r rs (x & Hroot & Hnear) _]; subst.
  apply within_bounds in Hnear.
  assert (Hneg : (scenario_poly x < 0)%R)
    by (apply scenario_poly_negative_near_0_0502; lra).
  unfold scenario_poly in Hneg; unfold is_root in Hroot.
  rewrite Hroot in Hneg; simpl in Hneg; lra.
Qed.

(** ** Newton's identities *)

Section Newton.

Context {C : Type} `{FieldLaws C} {M : Memory C}.

Add Ring scalar_ring_newton : scalar_ring_theory.

Lemma conv_ext (f f' g g' : nat -> C) (m : nat) :
  (forall j, f j = f' j) -> (forall k, g k = g' k) ->
  conv f g m = conv f' g' m.
Proof.
  revert f f'; induction m as [|m IH]; intros f f' Hf Hg; simpl; [reflexivity|].
  rewrite Hf, Hg; f_equal.
  apply IH; [intros j; apply Hf | exact Hg].
Qed.

Lemma conv_add_l (f f' g : nat -> C) (m : nat) :
  conv (fun j => s_add (f j) (f' j)) g m = s_add (conv f g m) (conv f' g m).
Proof.
  revert f f'; induction m as [|m IH]; intros f f'; simpl; [ring|].
  rewrite IH; ring.
Qed.

Lemma conv_add_r (f g g' : nat -> C) (m : nat) :
  conv f (fun k => s_add (g k) (g' k)) m = s_add (conv f g m) (conv f g' m).
Proof.
  revert f; induction m as [|m IH]; intros f; simpl; [ring|].
  rewrite IH; ring.
Qed.

Lemma conv_scale_l (a : C) (f g : nat -> C) (m : nat) :
  conv (fun j => s_neg (s_mul a (f j))) g m = s_neg (s_mul a (conv f g m)).
Proof.
  revert f; induction m as [|m IH]; intros f; simpl; [ring|].
  rewrite IH; ring.
Qed.

Lemma conv_zero_r (f : nat -> C) (m : nat) :
  conv f (fun _ => s_of_int 0) m = s_of_int 0.
Proof.
  revert f; induction m as [|m IH]; intros f; simpl; [reflexivity|].
  rewrite IH; ring.
Qed.

Lemma conv_prev (f g : nat -> C) (m : nat) :
  conv (prev f) g (S m) = conv f g m.
Proof.
  simpl; change (fun j => prev f (S j)) with (fun j => f j).
  rewrite (conv_ext (fun j => f j) f g g) by reflexivity; ring.
Qed.

(** The sums against the powers of [lam] telescope. *)
Lemma conv_pow (lam : C) (f : nat -> C) (m : nat) :
  conv f (s_pow lam) (S m) = s_mul lam (s_add (f m) (conv f (s_pow lam) m)).
Proof.
  revert f; induction m as [|m IH]; intros f.
  - simpl; ring.
  - change (conv f (s_pow lam) (S (S m)))
      with (s_add (s_mul (f O) (s_pow lam (S (S m))))
                  (conv (fun j => f (S j)) (s_pow lam) (S m))).
    rewrite IH.
    change (conv f (s_pow lam) (S m))
      with (s_add (s_mul (f O) (s_pow lam (S m)))
                  (conv (fun j => f (S j)) (s_pow lam) m)).
    change (s_pow lam (S (S m))) with (s_mul lam (s_pow lam (S m))).
    ring.
Qed.

(** *** The coefficients of the product *)

Lemma length_add_lists (u v : list C) :
  length u = length v -> length (add_lists u v) = length u.
Proof.
  intros Hlen; unfold add_lists.
  rewrite length_map, length_combine, <- Hlen; apply Nat.min_id.
Qed.

Lemma length_char_coefs (lams : list C) :
  length (char_coefs lams) = S (length lams).
Proof.
  induction lams as [|lam rest IH]; simpl; [reflexivity|].
  rewrite length_add_lists; rewrite length_app; simpl;
    [|rewrite length_map]; lia.
Qed.

Lemma nth_add_lists (u v : list C) (j : nat) :
  length u = length v ->
  nth j (add_lists u v) (s_of_int 0)
  = s_add (nth j u (s_of_int 0)) (nth j v (s_of_int 0)).
Proof.
  revert v j; induction u as [|a u IH]; intros [|b v] j Hlen;
    try discriminate Hlen.
  - destruct j; simpl; ring.
  - destruct j as [|j]; simpl; [reflexivity|].
    apply IH; simpl in Hlen; lia.
Qed.

Lemma nth_snoc_zero (q : list C) (j : nat) :
  nth j (q ++ [s_of_int 0]) (s_of_int 0) = nth j q (s_of_int 0).
Proof.
  destruct (Nat.lt_ge_cases j (length q)) as [Hlt|Hge].
  - apply app_nth1; exact Hlt.
  - rewrite (nth_overflow q) by exact Hge.
    rewrite app_nth2 by exact Hge.
    destruct (j - length q)%nat as [|[|i]]; reflexivity.
Qed.

Lemma nth_map_scaled (lam : C) (q : list C) (j : nat) :
  nth j (map (fun c => s_neg (s_mul lam c)) q) (s_of_int 0)
  = s_neg (s_mul lam (nth j q (s_of_int 0))).
Proof.
  destruct (Nat.lt_ge_cases j (length q)) as [Hlt|Hge].
  - rewrite (nth_indep _ _ (s_neg (s_mul lam (s_of_int 0))))
      by (rewrite length_map; exact Hlt).
    apply (map_nth (fun c => s_neg (s_mul lam c))).
  - rewrite !nth_overflow by (try rewrite length_map; exact Hge); ring.
Qed.

Lemma char_coef_cons (lam : C) (rest : list C) (j : nat) :
  char_coef (lam :: rest) j
  = s_add (char_coef rest j) (s_neg (s_mul lam (prev (char_coef rest) j))).
Proof.
  unfold char_coef; simpl char_coefs.
  rewrite nth_add_lists
    by (rewrite length_app; simpl; rewrite length_map; lia).
  rewrite nth_snoc_zero; f_equal.
  destruct j as [|j]; simpl; [ring|].
  apply nth_map_scaled.
Qed.

Lemma char_coef_0 (lams : list C) : char_coef lams 0 = s_one.
Proof.
  induction lams as [|lam rest IH]; [reflexivity|].
  rewrite char_coef_cons, IH; simpl; ring.
Qed.

Lemma power_sum_cons (lam : C) (rest : list C) (k : nat) :
  power_sum (lam :: rest) k = s_add (s_pow lam k) (power_sum rest k).
Proof. reflexivity. Qed.

Lemma s_of_int_succ (m : nat) :
  s_of_int (Z.of_nat (S m)) = s_add (s_of_int (Z.of_nat m)) s_one.
Proof.
  rewrite Nat2Z.inj_succ; unfold Z.succ.
  rewrite s_of_int_add, s_of_int_1; reflexivity.
Qed.

Lemma s_opposite (x y : C) : s_add x y = s_of_int 0 -> y = s_neg x.
Proof.
  intros Hxy.
  transitivity (s_add (s_add x y) (s_neg x)); [ring|].
  rewrite Hxy; ring.
Qed.

(** Newton's identity for the eigenvalues [lams]:
    [m * c_m + sum for k = 1..m of c_(m-k) * p_k = 0], where [c] are the
    coefficients of the product of the [x - lam] and [p] the power sums. *)
Lemma newton_identity (lams : list C) :
  forall m : nat,
    s_add (s_mul (s_of_int (Z.of_nat m)) (char_coef lams m))
          (conv (char_coef lams) (power_sum lams) m)
    = s_of_int 0.
Proof.
  induction lams as [|lam rest IH]; intros m.
  - destruct m as [|m]; [simpl; ring|].
    rewrite (conv_ext _ (char_coef []) _ (fun _ => s_of_int 0))
      by reflexivity.
    rewrite conv_zero_r.
    unfold char_coef; simpl; destruct m; ring.
  - destruct m as [|m]; [simpl; ring|].
    rewrite (conv_ext _
               (fun j => s_add (char_coef rest j)
                               (s_neg (s_mul lam (prev (char_coef rest) j))))
               _ (fun k => s_add (s_pow lam k) (power_sum rest k)))
      by (intros; first [apply char_coef_cons | apply power_sum_cons]).
    rewrite conv_add_l, !conv_add_r, !conv_scale_l, !conv_prev, conv_pow.
    rewrite char_coef_cons; simpl prev.
    rewrite (s_opposite _ _ (IH (S m))), (s_opposite _ _ (IH m)).
    rewrite s_of_int_succ; ring.
Qed.

(** *** The recursion of the code computes these coefficients *)

(** The loop of [c_n_m] adds up the sum [conv]. *)
Lemma fold_left_conv (f g : nat -> C) (m : nat) :
  fold_left (fun suma k =>
               s_add suma (s_mul (f (Z.to_nat (Z.of_nat m - k))) (g (Z.to_nat k))))
            (py_range 1 (Z.of_nat m + 1)) (s_of_int 0)
  = conv f g m.
Proof.
  revert f; induction m as [|m IH]; intros f; [reflexivity|].
  rewrite py_range_snoc by lia.
  rewrite fold_left_app; cbn [fold_left].
  rewrite (fold_left_ext_in _
             (fun suma k =>
                s_add suma (s_mul (f (S (Z.to_nat (Z.of_nat m - k))))
                                  (g (Z.to_nat k))))).
  - replace (Z.of_nat (S m)) with (Z.of_nat m + 1) by lia.
    rewrite (IH (fun j => f (S j))).
    replace (Z.of_nat m + 1 - (Z.of_nat m + 1)) with 0 by lia.
    replace (Z.to_nat (Z.of_nat m + 1)) with (S m) by lia.
    simpl; ring.
  - intros k Hk suma; apply py_range_In in Hk.
    do 3 f_equal; lia.
Qed.

Lemma trace_at_eigen_traces (lams : list C) (k : Z) :
  1 <= k <= Z.of_nat (length lams) ->
  trace_at (eigen_traces lams) k = power_sum lams (Z.to_nat k).
Proof.
  intros Hk; unfold trace_at, eigen_traces.
  rewrite (nth_indep _ _ (power_sum lams (S O)))
    by (rewrite length_map, length_seq; lia).
  rewrite (map_nth (fun i => power_sum lams (S i))), seq_nth by lia.
  f_equal; lia.
Qed.

Lemma length_eigen_traces (lams : list C) :
  length (eigen_traces lams) = length lams.
Proof. unfold eigen_traces; rewrite length_map, length_seq; reflexivity. Qed.

(** Every value of [c_n_m] on the power sums of [lams] is a coefficient of the
    product of the [x - lam]. *)
Lemma coef_char_coef (n : Z) (lams : list C) (m : nat) :
  (m <= length lams)%nat ->
  coef n (eigen_traces lams) (Z.of_nat m) = char_coef lams m.
Proof.
  induction m as [m IH] using lt_wf_ind; intros Hm.
  destruct m as [|m]; [rewrite char_coef_0; reflexivity|].
  rewrite coef_equation by (rewrite length_eigen_traces; lia).
  rewrite (fold_left_ext_in _
             (fun suma k =>
                s_add suma
                  (s_mul (char_coef lams (Z.to_nat (Z.of_nat (S m) - k)))
                         (power_sum lams (Z.to_nat k))))).
  - rewrite fold_left_conv.
    rewrite (s_opposite _ _ (newton_identity lams (S m))).
    rewrite s_div_neg1.
    transitivity
      (s_mul (s_mul (s_of_int (Z.of_nat (S m)))
                    (s_div s_one (s_of_int (Z.of_nat (S m)))))
             (char_coef lams (S m))); [ring|].
    rewrite s_of_int_inv by lia; ring.
  - intros k Hk suma; apply py_range_In in Hk.
    unfold term.
    rewrite trace_at_eigen_traces by lia.
    replace (Z.of_nat (S m) - k) with (Z.of_nat (Z.to_nat (Z.of_nat (S m) - k)))
      at 1 by lia.
    rewrite IH by lia; reflexivity.
Qed.

(** *** The polynomial is the product of the factors *)

Lemma poly_val_add_lists (u v : list C) (x : C) :
  length u = length v ->
  poly_val (add_lists u v) x = s_add (poly_val u x) (poly_val v x).
Proof.
  unfold poly_val, add_lists.
  revert v; induction u as [|a u IH]; intros [|b v] Hlen;
    try discriminate Hlen; simpl; [ring|].
  rewrite IH by (simpl in Hlen; lia); ring.
Qed.

Lemma poly_val_snoc_zero (u : list C) (x : C) :
  poly_val (u ++ [s_of_int 0]) x = poly_val u x.
Proof.
  unfold poly_val; induction u as [|a u IH]; simpl; [ring|].
  rewrite IH; reflexivity.
Qed.

Lemma poly_val_scaled (lam : C) (u : list C) (x : C) :
  poly_val (map (fun c => s_neg (s_mul lam c)) u) x
  = s_neg (s_mul lam (poly_val u x)).
Proof.
  unfold poly_val; induction u as [|a u IH]; simpl; [ring|].
  rewrite IH; ring.
Qed.

Lemma rev_add_lists (u v : list C) :
  length u = length v ->
  rev (add_lists u v) = add_lists (rev u) (rev v).
Proof.
  unfold add_lists.
  revert v; induction u as [|a u IH]; intros [|b v] Hlen;
    try discriminate Hlen; [reflexivity|].
  simpl in Hlen; cbn [combine map rev].
  rewrite IH by lia.
  rewrite combine_snoc by (rewrite !length_rev; lia).
  rewrite map_app; reflexivity.
Qed.

Lemma char_poly_product (lams : list C) (x : C) :
  poly_val (poly (char_coefs lams)) x = product_form lams x.
Proof.
  unfold poly; induction lams as [|lam rest IH]; simpl; [ring|].
  rewrite rev_add_lists
    by (rewrite length_app; simpl; rewrite length_map; lia).
  rewrite rev_app_distr; simpl rev.
  rewrite <- map_rev.
  rewrite poly_val_add_lists
    by (simpl; rewrite length_app, length_map; simpl; lia).
  rewrite poly_val_snoc_zero, poly_val_scaled.
  simpl poly_val; fold (poly_val (rev (char_coefs rest)) x).
  rewrite IH; ring.
Qed.

End Newton.

(** ** The algorithm is right in exact arithmetic *)

Lemma compute_coefs_char_coefs {C : Type} `{FieldLaws C} {M : Memory C} (lams : list C) :
  compute_coefs (Z.of_nat (length lams)) (eigen_traces lams)
  = Ok (char_coefs lams).
Proof.
  rewrite compute_coefs_returns by (rewrite length_eigen_traces; lia).
  f_equal.
  apply (nth_ext _ _ (s_of_int 0) (s_of_int 0)).
  - simpl; rewrite length_map, py_range_length, length_char_coefs; lia.
  - intros j Hj; simpl length in Hj.
    rewrite length_map, py_range_length in Hj.
    fold (char_coef lams j).
    destruct j as [|j]; [rewrite char_coef_0; reflexivity|].
    rewrite <- (coef_char_coef (Z.of_nat (length lams))) by lia.
    apply nth_error_nth.
    replace (S j) with (Z.to_nat (Z.of_nat (S j))) at 1 by lia.
    apply coefs_nth_error; lia.
Qed.



(** On the traces of a matrix with the eigenvalues [lams], which are the
    power sums of [lams], [compute_coefs] returns the coefficients of the
    product of the factors [x - lam], highest degree first, and the polynomial
    handed to the solver is that product. *)
Theorem faddeev_leverrier_correct {C : Type} `{FieldLaws C} {M : Memory C} (lams : list C) :
  compute_coefs (Z.of_nat (length lams)) (eigen_traces lams)
  = Ok (char_coefs lams) /\
  forall x, poly_val (poly (char_coefs lams)) x = product_form lams x.
Proof.
  split; [apply compute_coefs_char_coefs | apply char_poly_product].
Qed.

Lemma faddeev_leverrier_correct_witness :
  compute_coefs (M := holding 0%R) 2 (eigen_traces [2%R; 3%R]) = Ok (char_coefs [2%R; 3%R]) /\
  forall x, poly_val (poly (char_coefs [2%R; 3%R])) x
            = product_form [2%R; 3%R] x.
Proof.
  exact (faddeev_leverrier_correct [2%R; 3%R]).
Defined.

(** ** Diagonal matrices, from the matrix to the roots *)

Lemma combine_map_same {A B D : Type} (f : A -> B) (g : A -> D) (l : list A) :
  combine (map f l) (map g l) = map (fun k => (f k, g k)) l.
Proof. induction l as [|a l IH]; simpl; [reflexivity | rewrite IH; reflexivity]. Qed.

Lemma map_nth_seq {A : Type} (l : list A) (d : A) :
  map (fun i => nth i l d) (seq 0 (length l)) = l.
Proof.
  apply (nth_ext _ _ d d).
  - rewrite length_map, length_seq; reflexivity.
  - intros i Hi; rewrite length_map, length_seq in Hi.
    rewrite (nth_indep _ _ (nth 0 l d)) by (rewrite length_map, length_seq; exact Hi).
    rewrite (map_nth (fun i => nth i l d)), seq_nth by exact Hi; reflexivity.
Qed.

Section Diagonal.

Context {C : Type} `{FieldLaws C} {M : Memory C}.

Add Ring scalar_ring_diagonal : scalar_ring_theory.

(** A sum with one term that is not 0. *)
Lemma sum_single (i : nat) (v : nat -> C) (len s : nat) (acc : C) :
  fold_left s_add
    (map (fun k => if Nat.eqb i k then v k else s_of_int 0) (seq s len)) acc
  = s_add acc (if (s <=? i)%nat && (i <? s + len)%nat then v i else s_of_int 0).
Proof.
  revert s acc; induction len as [|len IH]; intros s acc;
    cbn [seq map fold_left].
  - destruct (Nat.leb_spec s i), (Nat.ltb_spec i (s + 0));
      cbn [andb]; try lia; ring.
  - rewrite IH.
    destruct (Nat.eqb_spec i s), (Nat.leb_spec (S s) i), (Nat.leb_spec s i),
      (Nat.ltb_spec i (S s + len)), (Nat.ltb_spec i (s + S len));
      cbn [andb]; try lia; subst; ring.
Qed.

Lemma length_diag (lams : list C) : length (diag_rows lams) = length lams.
Proof. unfold diag_rows; rewrite length_map, length_seq; reflexivity. Qed.

Lemma is_square_diag (lams : list C) : is_square (diag lams) = true.
Proof.
  unfold is_square, shape0, diag; cbn [rows shape1].
  rewrite length_diag, Z.eqb_refl; cbn [andb].
  apply forallb_forall; intros row Hrow.
  unfold diag_rows in Hrow; apply in_map_iff in Hrow as (i & <- & _).
  rewrite length_map, length_seq; apply Z.eqb_refl.
Qed.

Lemma column_diag (b : list C) (j : nat) :
  (j < length b)%nat ->
  column (diag_rows b) j
  = map (fun k => if Nat.eqb k j then nth k b (s_of_int 0) else s_of_int 0)
        (seq 0 (length b)).
Proof.
  intros Hj; unfold column, diag_rows; rewrite map_map.
  apply map_ext; intros k.
  rewrite (nth_indep _ _ (if Nat.eqb k 0 then nth k b (s_of_int 0) else s_of_int 0))
    by (rewrite length_map, length_seq; exact Hj).
  rewrite (map_nth (fun j0 => if Nat.eqb k j0 then nth k b (s_of_int 0) else s_of_int 0)).
  rewrite seq_nth by exact Hj; reflexivity.
Qed.

Lemma length_mul_lists (a b : list C) :
  length a = length b -> length (mul_lists a b) = length a.
Proof.
  intros Hlen; unfold mul_lists.
  rewrite length_map, length_combine, <- Hlen; apply Nat.min_id.
Qed.

Lemma nth_mul_lists (a b : list C) (i : nat) :
  length a = length b ->
  nth i (mul_lists a b) (s_of_int 0)
  = s_mul (nth i a (s_of_int 0)) (nth i b (s_of_int 0)).
Proof.
  revert b i; induction a as [|x a IH]; intros [|y b] i Hlen;
    try discriminate Hlen.
  - destruct i; simpl; ring.
  - destruct i as [|i]; simpl; [reflexivity|].
    apply IH; simpl in Hlen; lia.
Qed.

(** The product of two diagonal matrices is the diagonal matrix of the
    products. *)
Lemma matmul_diag (a b : list C) :
  length a = length b -> matmul (diag_rows a) (diag_rows b) = diag_rows (mul_lists a b).
Proof.
  intros Hlen; unfold matmul.
  assert (Hhd : length (hd [] (diag_rows b)) = length b \/ a = []).
  { destruct b as [|y b]; [right; destruct a; [reflexivity | discriminate]|].
    left; unfold diag_rows; simpl; rewrite length_map, length_seq; reflexivity. }
  destruct Hhd as [Hhd| ->]; [|reflexivity].
  rewrite Hhd; set (Db := diag_rows b); unfold diag_rows; subst Db.
  rewrite map_map, length_mul_lists, Hlen by exact Hlen.
  apply map_ext_in; intros i Hi; apply in_seq in Hi.
  apply map_ext_in; intros j Hj; apply in_seq in Hj.
  rewrite column_diag by lia.
  unfold dot; rewrite <- Hlen, combine_map_same, map_map; simpl.
  rewrite (map_ext _
             (fun k => if Nat.eqb i k
                       then (if Nat.eqb k j
                             then s_mul (nth i a (s_of_int 0)) (nth k b (s_of_int 0))
                             else s_of_int 0)
                       else s_of_int 0)).
  - rewrite (sum_single i
               (fun k => if Nat.eqb k j
                         then s_mul (nth i a (s_of_int 0)) (nth k b (s_of_int 0))
                         else s_of_int 0)).
    destruct (Nat.leb_spec 0 i); [|lia].
    destruct (Nat.ltb_spec i (0 + length a)); [|lia]; simpl.
    rewrite nth_mul_lists by exact Hlen.
    destruct (Nat.eqb i j); ring.
  - intros k; destruct (Nat.eqb i k), (Nat.eqb k j); ring.
Qed.

Lemma mul_lists_map (f : C -> C) (a : list C) :
  mul_lists (map f a) a = map (fun x => s_mul (f x) x) a.
Proof.
  unfold mul_lists.
  rewrite <- (map_id a) at 2.
  rewrite combine_map_same, map_map; reflexivity.
Qed.

Lemma matrix_pow_diag (a : list C) (k : nat) :
  matrix_pow (diag_rows a) k = diag_rows (map (fun x => s_pow x (S k)) a).
Proof.
  induction k as [|k IH]; simpl matrix_pow.
  - f_equal; rewrite <- (map_id a) at 1.
    apply map_ext; intros x; simpl; ring.
  - rewrite IH, matmul_diag by (rewrite length_map; reflexivity).
    rewrite mul_lists_map; f_equal.
    apply map_ext; intros x; simpl; ring.
Qed.

Lemma diagonal_from_rows (v : list C) (len s : nat) :
  (s + len <= length v)%nat ->
  diagonal_from s
    (map (fun i =>
            map (fun j => if Nat.eqb i j then nth i v (s_of_int 0) else s_of_int 0)
                (seq 0 (length v)))
         (seq s len))
  = map (fun i => nth i v (s_of_int 0)) (seq s len).
Proof.
  revert s; induction len as [|len IH]; intros s Hs; simpl; [reflexivity|].
  rewrite nth_error_map, nth_error_seq.
  destruct (Nat.ltb_spec s (length v)); [|lia]; simpl.
  rewrite Nat.eqb_refl, IH by lia; reflexivity.
Qed.

Lemma fold_left_add_sum (xs : list C) (x : C) :
  fold_left s_add xs x = s_add x (fold_right s_add (s_of_int 0) xs).
Proof.
  revert x; induction xs as [|y xs IH]; intros x; simpl; [ring|].
  rewrite IH; ring.
Qed.

Lemma trace_rows_diag (v : list C) :
  trace_rows (diag_rows v) = fold_right s_add (s_of_int 0) v.
Proof.
  unfold trace_rows, diag_rows.
  rewrite diagonal_from_rows by lia.
  rewrite map_nth_seq.
  destruct v as [|x xs]; [reflexivity|].
  rewrite fold_left_add_sum; reflexivity.
Qed.

Lemma power_sum_map (lams : list C) (k : nat) :
  power_sum lams k = fold_right s_add (s_of_int 0) (map (fun x => s_pow x k) lams).
Proof.
  unfold power_sum; induction lams as [|lam rest IH]; simpl;
    [reflexivity | rewrite IH; reflexivity].
Qed.

(** The traces of the powers of a diagonal matrix are the power sums of its
    entries. *)
Lemma get_traces_diag (lams : list C) :
  get_traces (diag lams) = Ok (eigen_traces lams).
Proof.
  rewrite get_traces_square by apply is_square_diag.
  f_equal; unfold shape0, eigen_traces, py_range, diag; cbn [rows].
  rewrite length_diag, map_map.
  replace (Z.to_nat (Z.of_nat (length lams) - 0)) with (length lams) by lia.
  apply map_ext; intros i.
  replace (Z.to_nat (0 + Z.of_nat i)) with i by lia.
  unfold np_trace, powered; cbn [rows].
  rewrite matrix_pow_diag, trace_rows_diag, power_sum_map; reflexivity.
Qed.

End Diagonal.




(** *** In binary64 *)







(** ** More on [c_n_m] and [compute_coefs], for every kind of number *)

Section Reads.

Context {C : Type} `{Scalar C} {M : Memory C}.

(** A call at [m] looks at the first [m] traces only. *)
Lemma coef_agree (n : Z) (v w : list C) (m : Z) :
  0 <= m -> m <= Z.of_nat (length v) -> m <= Z.of_nat (length w) ->
  (forall k, 1 <= k <= m -> trace_at v k = trace_at w k) ->
  coef n v m = coef n w m.
Proof.
  intros Hm; revert m Hm.
  apply (Zlt_0_ind (fun m =>
    m <= Z.of_nat (length v) -> m <= Z.of_nat (length w) ->
    (forall k, 1 <= k <= m -> trace_at v k = trace_at w k) ->
    coef n v m = coef n w m)).
  intros m IH Hm Hv Hw Htr.
  destruct (Z.eq_dec m 0) as [->|Hm0]; [reflexivity|].
  rewrite !coef_equation by lia; f_equal.
  apply fold_left_ext_in; intros k Hk suma; apply py_range_In in Hk.
  unfold term; rewrite Htr by lia.
  rewrite (IH (m - k)); [reflexivity | lia | lia | lia |].
  intros j Hj; apply Htr; lia.
Qed.

Lemma trace_at_firstn (v : list C) (d k : Z) :
  1 <= k <= d -> trace_at (firstn (Z.to_nat d) v) k = trace_at v k.
Proof.
  intros Hk; unfold trace_at; rewrite nth_firstn.
  destruct (Nat.ltb_spec (Z.to_nat (k - 1)) (Z.to_nat d)); [reflexivity | lia].
Qed.

(** The calls [compute_coefs] makes, and the calls they make. *)
Lemma compute_coefs_log_all (d : Z) (vec : list C) :
  d <= Z.of_nat (length vec) ->
  snd (compute_coefs_log d vec)
  = concat (map (fun m => snd (c_n_m_log (S (Z.to_nat m)) d m vec))
                (py_range 1 (d + 1))).
Proof.
  intros Hd; unfold compute_coefs_log.
  rewrite (for_each_log_all_ok _ _
             (fun c_list m => c_list ++ [coef d vec m])
             (fun m => snd (c_n_m_log (S (Z.to_nat m)) d m vec)));
    [reflexivity|].
  intros m Hm c_list; apply py_range_In in Hm.
  destruct (c_n_m_log_length d vec m) with (fuel := S (Z.to_nat m))
    as [Hval _]; [lia | lia | lia |].
  destruct (c_n_m_log (S (Z.to_nat m)) d m vec) as [rc lc]; simpl in *.
  rewrite Hval; reflexivity.
Qed.

End Reads.

Lemma sum_of_powers (d : Z) :
  0 <= d ->
  (list_sum (map (fun m => 2 ^ Z.to_nat m) (py_range 1 (d + 1)))
   = 2 ^ S (Z.to_nat d) - 2)%nat.
Proof.
  revert d; apply natlike_ind; [reflexivity|].
  intros d Hd IH; unfold Z.succ.
  rewrite py_range_snoc, map_app, list_sum_app, IH by lia.
  cbn [map]; change (list_sum [?a]) with (a + 0)%nat.
  replace (Z.to_nat (d + 1)) with (S (Z.to_nat d)) by lia.
  rewrite !Nat.pow_succ_r'.
  assert (0 < 2 ^ Z.to_nat d)%nat by (apply Nat.neq_0_lt_0, Nat.pow_nonzero; lia).
  lia.
Qed.

(** [c_n_m] on its whole domain: a negative [m] skips the loop and returns
    the product of the initial [0] and [-1/m]; for [0 <= m <= len] the call
    returns a value that no content of the memory changes; beyond, it returns
    as well, the loads running past the end of the array: its value is the
    one of the call on the [m] scalars made of the traces and of what the
    memory holds behind them. *)
Theorem c_n_m_outcome {C : Type} `{Scalar C} {M : Memory C} (n m : Z) (vec_of_traces : list C) :
  (m < 0 ->
   c_n_m n m vec_of_traces
   = Ok (s_mul (s_of_int 0) (s_div (s_of_int (-1)) (s_of_int m)))) /\
  (0 <= m <= Z.of_nat (length vec_of_traces) ->
   exists c, forall M' : Memory C, c_n_m (M := M') n m vec_of_traces = Ok c) /\
  (Z.of_nat (length vec_of_traces) < m ->
   exists c,
     c_n_m n m vec_of_traces = Ok c /\
     Z.of_nat (length (seen_upto m vec_of_traces)) = m /\
     forall M' : Memory C,
       c_n_m (M := M') n m (seen_upto (M := M) m vec_of_traces) = Ok c).
Proof.
  split; [apply c_n_m_negative|].
  split.
  - intros Hm; exists (coef n vec_of_traces m); intros M'.
    rewrite (c_n_m_memory M' M) by lia; apply c_n_m_always_returns.
  - intros Hm; exists (coef n vec_of_traces m).
    split; [apply c_n_m_always_returns|].
    split; [rewrite length_seen_upto; lia|].
    intros M'.
    rewrite (c_n_m_memory M' M) by (rewrite length_seen_upto; lia).
    rewrite c_n_m_seen; apply c_n_m_always_returns.
Qed.

Lemma c_n_m_outcome_witness :
  c_n_m (M := holding 0%float) 4 (-3) scenario_traces = Ok 0%float /\
  (exists c, forall M' : Memory float,
      c_n_m (M := M') 4 3 scenario_traces = Ok c) /\
  (exists c,
      c_n_m (M := holding 0%float) 4 5 scenario_traces = Ok c /\
      Z.of_nat (length (seen_upto (M := holding 0%float) 5 scenario_traces)) = 5 /\
      forall M' : Memory float,
        c_n_m (M := M') 4 5 (seen_upto (M := holding 0%float) 5 scenario_traces)
        = Ok c).
Proof.
  split; [|split].
  - refine (proj1 (c_n_m_outcome 4 (-3) scenario_traces) _); lia.
  - refine (proj1 (proj2 (c_n_m_outcome (M := holding 0%float) 4 3
                            scenario_traces)) _); simpl; lia.
  - refine (proj2 (proj2 (c_n_m_outcome 4 5 scenario_traces)) _); simpl; lia.
Defined.

(** [compute_coefs(d, .)] looks at the first [d] traces only: two trace
    vectors that agree there give the same coefficients. *)
Theorem compute_coefs_reads_first_d {C : Type} `{Scalar C} {M : Memory C}
        (d : Z) (v w : list C) :
  d <= Z.of_nat (length v) -> d <= Z.of_nat (length w) ->
  firstn (Z.to_nat d) v = firstn (Z.to_nat d) w ->
  compute_coefs d v = compute_coefs d w.
Proof.
  intros Hv Hw Hfirst.
  rewrite !compute_coefs_returns by assumption.
  do 2 f_equal.
  apply map_ext_in; intros m Hm; apply py_range_In in Hm.
  apply coef_agree; try lia.
  intros k Hk.
  rewrite <- (trace_at_firstn v d k), <- (trace_at_firstn w d k) by lia.
  rewrite Hfirst; reflexivity.
Qed.

Lemma compute_coefs_reads_first_d_witness :
  compute_coefs (M := holding 0%float) 2 [1%float; 0.4372%float; 0.2299%float]
  = compute_coefs (M := holding 0%float) 2 [1%float; 0.4372%float; 7%float; 9%float].
Proof.
  refine (compute_coefs_reads_first_d 2
            [1%float; 0.4372%float; 0.2299%float]
            [1%float; 0.4372%float; 7%float; 9%float] _ _ _);
    [simpl; lia | simpl; lia | reflexivity].
Defined.

(** The coefficients for [d + 1] are the coefficients for [d] followed by one
    more value of [c_n_m]. *)
Theorem compute_coefs_extends {C : Type} `{Scalar C} {M : Memory C} (d : Z) (vec : list C) :
  0 <= d ->
  compute_coefs (d + 1) vec
  = (cs <- compute_coefs d vec ;;
     c <- c_n_m (d + 1) (d + 1) vec ;;
     Ok (cs ++ [c])).
Proof.
  intros Hd; unfold compute_coefs.
  rewrite (py_range_snoc 1 (d + 1)) by lia.
  rewrite for_each_app.
  rewrite (for_each_ext (py_range 1 (d + 1)) _
             (fun m c_list => c <- c_n_m d m vec ;; Ok (c_list ++ [c]))).
  - destruct (for_each _ _ _) as [cs|e]; [|reflexivity].
    simpl; destruct (c_n_m (d + 1) (d + 1) vec); reflexivity.
  - intros m _ c_list; unfold c_n_m.
    rewrite (c_n_m_fuel_n_irrelevant _ (d + 1) d); reflexivity.
Qed.

Lemma compute_coefs_extends_witness :
  compute_coefs (M := holding 0%float) (3 + 1) scenario_traces
  = (cs <- compute_coefs (M := holding 0%float) 3 scenario_traces ;;
     c <- c_n_m (M := holding 0%float) (3 + 1) (3 + 1) scenario_traces ;;
     Ok (cs ++ [c])).
Proof.
  refine (compute_coefs_extends 3 scenario_traces _); lia.
Defined.

(** Computing [d] coefficients enters [c_n_m] [2^(d+1) - 2] times. *)
Theorem compute_coefs_call_count {C : Type} `{Scalar C} {M : Memory C} (d : Z) (vec : list C) :
  0 <= d -> d <= Z.of_nat (length vec) ->
  Z.of_nat (length (snd (compute_coefs_log d vec))) = 2 ^ (d + 1) - 2.
Proof.
  intros Hd Hlen.
  rewrite compute_coefs_log_all by exact Hlen.
  rewrite length_concat, map_map.
  rewrite (map_ext_in _ (fun m => (2 ^ Z.to_nat m)%nat)).
  - rewrite sum_of_powers by exact Hd.
    assert (2 <= 2 ^ S (Z.to_nat d))%nat.
    { rewrite Nat.pow_succ_r'.
      assert (0 < 2 ^ Z.to_nat d)%nat
        by (apply Nat.neq_0_lt_0, Nat.pow_nonzero; lia).
      lia. }
    rewrite Nat2Z.inj_sub, Nat2Z.inj_pow by assumption.
    replace (Z.of_nat (S (Z.to_nat d))) with (d + 1) by lia.
    reflexivity.
  - intros m Hm; apply py_range_In in Hm.
    apply (c_n_m_log_length d vec m); lia.
Qed.

Lemma compute_coefs_call_count_witness :
  Z.of_nat (length (snd (compute_coefs_log (M := holding 0%float) 4 scenario_traces))) = 2 ^ (4 + 1) - 2.
Proof.
  refine (compute_coefs_call_count 4 scenario_traces _ _); simpl; lia.
Defined.

(** The cell [compute_coefs(d, get_traces(rho))]: a matrix that is not square
    and has a row stops it in [get_traces]; on a square matrix, and on a
    matrix with no rows, it returns [d + 1] coefficients (one for [d < 1]),
    the first of them 1, whatever [d] is.  With at least [d] rows no content
    of the memory changes them; with fewer, they are the coefficients of the
    traces followed by what the memory holds behind them, and nothing is
    raised. *)
Theorem coefs_cell_outcome {C : Type} `{Scalar C} {M : Memory C} (d : Z) (rho : matrix C) :
  (is_square rho = false -> 0 < shape0 rho ->
   coefs_cell d rho = Raise LinAlgError) /\
  (is_square rho = true \/ shape0 rho = 0 ->
   exists traces cs,
     get_traces rho = Ok traces /\
     Z.of_nat (length traces) = shape0 rho /\
     coefs_cell d rho = Ok cs /\
     length cs = S (Z.to_nat d) /\
     nth_error cs 0 = Some s_one /\
     (d <= shape0 rho ->
      forall M' : Memory C, coefs_cell (M := M') d rho = Ok cs) /\
     (forall M' : Memory C,
        compute_coefs (M := M') d (seen_upto (M := M) d traces) = Ok cs)).
Proof.
  unfold coefs_cell; split.
  - intros Hsq Hrows; rewrite get_traces_not_square by assumption; reflexivity.
  - intros Hshape.
    assert (Htraces : exists traces, get_traces rho = Ok traces).
    { destruct Hshape as [Hsq|Hrows].
      - eexists; apply get_traces_square; exact Hsq.
      - eexists; apply get_traces_no_rows; exact Hrows. }
    destruct Htraces as [traces Htraces].
    assert (Hlen := length_get_traces rho traces Htraces).
    destruct (compute_coefs_past_end d traces)
      as (cs & Hcs & Hlencs & Hfirst & Hmem).
    exists traces, cs; rewrite Htraces; cbn [bind].
    repeat split; try assumption.
    intros Hd M'.
    rewrite (compute_coefs_memory M' M) by lia; exact Hcs.
Qed.

Lemma coefs_cell_outcome_witness :
  coefs_cell (M := holding 0%float) 2 (Matrix [[0.5%float; 0.25%float]] 2)
  = Raise LinAlgError /\
  exists traces cs,
    get_traces (Matrix [[0.5%float; 0.25%float]; [0.25%float; 0.5%float]] 2)
    = Ok traces /\
    Z.of_nat (length traces)
    = shape0 (Matrix [[0.5%float; 0.25%float]; [0.25%float; 0.5%float]] 2) /\
    coefs_cell (M := holding 0%float) 3
      (Matrix [[0.5%float; 0.25%float]; [0.25%float; 0.5%float]] 2) = Ok cs /\
    length cs = 4%nat /\
    nth_error cs 0 = Some 1%float /\
    (3 <= shape0 (Matrix [[0.5%float; 0.25%float]; [0.25%float; 0.5%float]] 2) ->
     forall M' : Memory float,
       coefs_cell (M := M') 3
         (Matrix [[0.5%float; 0.25%float]; [0.25%float; 0.5%float]] 2) = Ok cs) /\
    (forall M' : Memory float,
       compute_coefs (M := M') 3 (seen_upto (M := holding 0%float) 3 traces)
       = Ok cs).
Proof.
  split.
  - refine (proj1 (coefs_cell_outcome 2 (Matrix [[0.5%float; 0.25%float]] 2))
              _ _); [reflexivity | unfold shape0; simpl; lia].
  - refine (proj2 (coefs_cell_outcome 3
              (Matrix [[0.5%float; 0.25%float]; [0.25%float; 0.5%float]] 2)) _).
    left; reflexivity.
Defined.

(** ** More in exact arithmetic *)

Section Closed.

Context {C : Type} `{FieldLaws C} {M : Memory C}.

Add Ring scalar_ring_closed : scalar_ring_theory.

Lemma coef_two (n : Z) (t1 t2 : C) (rest : list C) :
  coef n (t1 :: t2 :: rest) 2
  = s_div (s_add (s_mul t1 t1) (s_neg t2)) (s_of_int 2).
Proof.
  rewrite coef_equation by (simpl length; lia).
  change (py_range 1 (2 + 1)) with [1; 2]; cbn [fold_left]; unfold term.
  change (2 - 1) with 1; change (2 - 2) with 0.
  rewrite coef_one, coef_zero.
  change (trace_at (t1 :: t2 :: rest) 1) with t1.
  change (trace_at (t1 :: t2 :: rest) 2) with t2.
  rewrite s_div_neg1.
  rewrite (s_div_def (s_add (s_mul t1 t1) (s_neg t2)) (s_of_int 2)); ring.
Qed.

Lemma poly_val_at_zero (c : C) (l : list C) :
  poly_val (c :: l) (s_of_int 0) = c.
Proof. unfold poly_val; simpl; ring. Qed.

Lemma product_form_at_zero (lams : list C) :
  product_form lams (s_of_int 0)
  = fold_right (fun lam acc => s_mul (s_neg lam) acc) s_one lams.
Proof.
  induction lams as [|lam rest IH]; [reflexivity|].
  change (product_form (lam :: rest) (s_of_int 0))
    with (s_mul (s_add (s_of_int 0) (s_neg lam))
                (product_form rest (s_of_int 0))).
  rewrite IH; cbn [fold_right]; ring.
Qed.

Lemma last_char_coefs (lams : list C) :
  last (char_coefs lams) s_one
  = fold_right (fun lam acc => s_mul (s_neg lam) acc) s_one lams.
Proof.
  rewrite <- product_form_at_zero, <- char_poly_product; unfold poly.
  destruct (rev (char_coefs lams)) as [|a r] eqn:Hrev.
  - apply (f_equal (@length C)) in Hrev.
    rewrite length_rev, length_char_coefs in Hrev; discriminate.
  - rewrite poly_val_at_zero.
    rewrite <- (rev_involutive (char_coefs lams)), Hrev; simpl.
    apply last_last.
Qed.

(** If [x * (-1/m) = y * (-1/m)] then [x = y], for [m] other than 0. *)
Lemma cancel_minus_inverse (m : Z) (x y : C) :
  m <> 0 ->
  s_mul x (s_div (s_of_int (-1)) (s_of_int m))
  = s_mul y (s_div (s_of_int (-1)) (s_of_int m)) ->
  x = y.
Proof.
  intros Hm Heq; rewrite !s_div_neg1 in Heq.
  assert (Hinv := s_of_int_inv m Hm).
  set (inv := s_div s_one (s_of_int m)) in *.
  transitivity (s_mul (s_mul x (s_neg inv)) (s_neg (s_of_int m))).
  - transitivity (s_mul x (s_mul (s_of_int m) inv)); [rewrite Hinv|]; ring.
  - rewrite Heq.
    transitivity (s_mul y (s_mul (s_of_int m) inv)); [|rewrite Hinv]; ring.
Qed.

(** Equal coefficients come from equal traces. *)
Lemma traces_of_coefs (n : Z) (v w : list C) (d : Z) :
  d <= Z.of_nat (length v) -> d <= Z.of_nat (length w) ->
  (forall m, 0 <= m <= d -> coef n v m = coef n w m) ->
  forall k, 0 <= k -> 1 <= k <= d -> trace_at v k = trace_at w k.
Proof.
  intros Hv Hw Hcoef k Hk; revert k Hk.
  apply (Zlt_0_ind (fun k => 1 <= k <= d -> trace_at v k = trace_at w k)).
  intros k IH _ Hkd.
  assert (Hck := Hcoef k ltac:(lia)).
  rewrite !coef_equation in Hck by lia.
  apply cancel_minus_inverse in Hck; [|lia].
  rewrite !(py_range_snoc 1 k), !fold_left_app in Hck by lia.
  cbn [fold_left] in Hck.
  rewrite (fold_left_ext_in (term n k v) (term n k w)) in Hck.
  - unfold term at 1 3 in Hck.
    replace (k - k) with 0 in Hck by lia.
    rewrite !coef_zero in Hck.
    set (F := fold_left (term n k w) (py_range 1 k) (s_of_int 0)) in *.
    transitivity (s_add (s_add F (s_mul s_one (trace_at v k))) (s_neg F));
      [ring|].
    rewrite Hck; ring.
  - intros j Hj suma; apply py_range_In in Hj.
    unfold term; rewrite Hcoef, IH by lia; reflexivity.
Qed.

End Closed.

(** In exact arithmetic the second coefficient is [(t1^2 - t2) / 2], where
    [t1] and [t2] are the first two traces: for a density matrix, half of one
    minus the purity. *)
Theorem coefficient_2_from_two_traces {C : Type} `{FieldLaws C} {M : Memory C}
        (d : Z) (t1 t2 : C) (rest : list C) :
  2 <= d ->
  (forall cs, compute_coefs d (t1 :: t2 :: rest) = Ok cs ->
     nth_error cs 2
     = Some (s_div (s_add (s_mul t1 t1) (s_neg t2)) (s_of_int 2))) /\
  (d <= Z.of_nat (length (t1 :: t2 :: rest)) ->
   exists cs, compute_coefs d (t1 :: t2 :: rest) = Ok cs /\
     nth_error cs 2
     = Some (s_div (s_add (s_mul t1 t1) (s_neg t2)) (s_of_int 2))).
Proof.
  intros Hd.
  assert (Hret : d <= Z.of_nat (length (t1 :: t2 :: rest)) ->
    exists cs, compute_coefs d (t1 :: t2 :: rest) = Ok cs /\
      nth_error cs 2
      = Some (s_div (s_add (s_mul t1 t1) (s_neg t2)) (s_of_int 2))).
  { intros Hlen; eexists; split; [apply compute_coefs_returns; exact Hlen|].
    rewrite <- (coef_two d t1 t2 rest).
    apply (coefs_nth_error d (t1 :: t2 :: rest) 2); lia. }
  split; [|exact Hret].
  intros cs Hcs.
  rewrite <- (coef_two d t1 t2 rest).
  apply (compute_coefs_entry d (t1 :: t2 :: rest) cs 2); [lia | exact Hcs].
Qed.

Lemma coefficient_2_from_two_traces_witness :
  (forall cs, compute_coefs (M := holding 0%R) 2 [1%R; 3%R] = Ok cs ->
     nth_error cs 2 = Some ((1 * 1 + - 3) / 2)%R) /\
  (exists cs, compute_coefs (M := holding 0%R) 2 [1%R; 3%R] = Ok cs /\
     nth_error cs 2 = Some ((1 * 1 + - 3) / 2)%R).
Proof.
  split.
  - refine (proj1 (coefficient_2_from_two_traces 2 1%R 3%R [] _)); lia.
  - refine (proj2 (coefficient_2_from_two_traces 2 1%R 3%R [] _) _);
      simpl; lia.
Defined.

(** In exact arithmetic the last coefficient computed from the power sums of
    the eigenvalues is the product of their opposites: the determinant, up to
    the sign [(-1)^d]. *)
Theorem last_coefficient_is_determinant {C : Type} `{FieldLaws C} {M : Memory C}
        (lams : list C) :
  exists cs,
    compute_coefs (Z.of_nat (length lams)) (eigen_traces lams) = Ok cs /\
    last cs s_one
    = fold_right (fun lam acc => s_mul (s_neg lam) acc) s_one lams.
Proof.
  exists (char_coefs lams); split.
  - apply compute_coefs_char_coefs.
  - apply last_char_coefs.
Qed.

Lemma last_coefficient_is_determinant_witness :
  exists cs,
    compute_coefs (M := holding 0%R) 2 (eigen_traces [2%R; 3%R]) = Ok cs /\
    last cs 1%R = (- 2 * (- 3 * 1))%R.
Proof.
  exact (last_coefficient_is_determinant [2%R; 3%R]).
Defined.

(** In exact arithmetic the coefficients determine the traces they were
    computed from: two trace vectors with the same [d] coefficients have the
    same first [d] entries. *)
Theorem compute_coefs_injective {C : Type} `{FieldLaws C} {M : Memory C}
        (d : Z) (v w : list C) :
  0 <= d -> d <= Z.of_nat (length v) -> d <= Z.of_nat (length w) ->
  compute_coefs d v = compute_coefs d w ->
  firstn (Z.to_nat d) v = firstn (Z.to_nat d) w.
Proof.
  intros Hd Hv Hw Heq.
  rewrite !compute_coefs_returns in Heq by assumption.
  injection Heq as Hmap.
  assert (Hcoef : forall m, 0 <= m <= d -> coef d v m = coef d w m).
  { intros m Hm; destruct (Z.eq_dec m 0) as [->|Hm0]; [reflexivity|].
    assert (Hnth := coefs_nth_error d v m ltac:(lia)).
    cbn [nth_error] in Hnth.
    replace (Z.to_nat m) with (S (Z.to_nat (m - 1))) in Hnth by lia.
    cbn [nth_error] in Hnth; rewrite Hmap in Hnth.
    assert (Hnth' := coefs_nth_error d w m ltac:(lia)).
    replace (Z.to_nat m) with (S (Z.to_nat (m - 1))) in Hnth' by lia.
    cbn [nth_error] in Hnth'; congruence. }
  apply (nth_ext _ _ (s_of_int 0) (s_of_int 0)).
  - rewrite !length_firstn; lia.
  - intros i Hi; rewrite length_firstn in Hi.
    rewrite !nth_firstn.
    destruct (Nat.ltb_spec i (Z.to_nat d)); [|reflexivity].
    assert (Htr := traces_of_coefs d v w d Hv Hw Hcoef (Z.of_nat i + 1)
                     ltac:(lia) ltac:(lia)).
    unfold trace_at in Htr.
    replace (Z.to_nat (Z.of_nat i + 1 - 1)) with i in Htr by lia.
    exact Htr.
Qed.

Lemma compute_coefs_injective_witness :
  firstn 2 [1%R; 3%R; 5%R] = firstn 2 [1%R; 3%R; 8%R].
Proof.
  refine (compute_coefs_injective (M := holding 0%R) 2
            [1%R; 3%R; 5%R] [1%R; 3%R; 8%R] _ _ _ _);
    [lia | simpl; lia | simpl; lia | reflexivity].
Defined.

(** ** A matrix multiplied by a number *)

Lemma combine_map_both {A B A' B' : Type} (f : A -> A') (g : B -> B')
      (u : list A) (v : list B) :
  combine (map f u) (map g v) = map (fun p => (f (fst p), g (snd p))) (combine u v).
Proof.
  revert v; induction u as [|x u IH]; intros [|y v]; simpl; try reflexivity.
  rewrite IH; reflexivity.
Qed.

Section Scaling.

Context {C : Type} `{FieldLaws C} {M : Memory C}.

Add Ring scalar_ring_scaling : scalar_ring_theory.

Lemma s_pow_add (a : C) (i j : nat) :
  s_pow a (i + j) = s_mul (s_pow a i) (s_pow a j).
Proof. induction i as [|i IH]; simpl; [|rewrite IH]; ring. Qed.

Lemma scale_from_cons (first : nat) (a x : C) (l : list C) :
  scale_from first a (x :: l)
  = s_mul (s_pow a first) x :: scale_from (S first) a l.
Proof. reflexivity. Qed.

Lemma length_scale_from (first : nat) (a : C) (l : list C) :
  length (scale_from first a l) = length l.
Proof.
  unfold scale_from.
  rewrite length_map, length_combine, length_seq; apply Nat.min_id.
Qed.

Lemma nth_scale_from (a : C) (l : list C) :
  forall first i,
    nth i (scale_from first a l) (s_of_int 0)
    = s_mul (s_pow a (first + i)) (nth i l (s_of_int 0)).
Proof.
  induction l as [|x l IH]; intros first i.
  - destruct i; simpl; ring.
  - rewrite scale_from_cons; destruct i as [|i]; cbn [nth].
    + rewrite Nat.add_0_r; reflexivity.
    + rewrite IH; do 2 f_equal; lia.
Qed.

Lemma fold_left_scaled {A : Type} (g g' : A -> C) (b : C) (l : list A) :
  (forall k, In k l -> g' k = s_mul b (g k)) ->
  forall acc,
    fold_left (fun suma k => s_add suma (g' k)) l (s_mul b acc)
    = s_mul b (fold_left (fun suma k => s_add suma (g k)) l acc).
Proof.
  induction l as [|x l IH]; intros Hg acc; simpl; [reflexivity|].
  rewrite (Hg x (or_introl eq_refl)).
  rewrite <- IH by (intros k Hk; apply Hg; right; exact Hk).
  f_equal; ring.
Qed.

(** Multiplying trace [k] by [a^k] multiplies the value of [c_n_m] at [m] by
    [a^m]. *)
Lemma coef_scaled (n : Z) (a : C) (vec : list C) (m : Z) :
  0 <= m -> m <= Z.of_nat (length vec) ->
  coef n (scale_traces a vec) m = s_mul (s_pow a (Z.to_nat m)) (coef n vec m).
Proof.
  intros Hm; revert m Hm.
  apply (Zlt_0_ind (fun m => m <= Z.of_nat (length vec) ->
    coef n (scale_traces a vec) m
    = s_mul (s_pow a (Z.to_nat m)) (coef n vec m))).
  intros m IH Hm Hlen.
  destruct (Z.eq_dec m 0) as [->|Hm0]; [rewrite !coef_zero; simpl; ring|].
  rewrite !coef_equation
    by (unfold scale_traces; rewrite ?length_scale_from; lia).
  transitivity
    (s_mul (s_mul (s_pow a (Z.to_nat m))
                  (fold_left (term n m vec) (py_range 1 (m + 1)) (s_of_int 0)))
           (s_div (s_of_int (-1)) (s_of_int m))); [|ring].
  f_equal.
  replace (s_of_int 0) with (s_mul (s_pow a (Z.to_nat m)) (s_of_int 0)) at 1
    by ring.
  apply (fold_left_scaled
           (fun k => s_mul (coef n vec (m - k)) (trace_at vec k))
           (fun k => s_mul (coef n (scale_traces a vec) (m - k))
                           (trace_at (scale_traces a vec) k))).
  intros k Hk; apply py_range_In in Hk.
  rewrite IH by lia.
  unfold trace_at at 1, scale_traces at 1; rewrite nth_scale_from.
  fold (trace_at vec k).
  replace (Z.to_nat m) with (Z.to_nat (m - k) + (1 + Z.to_nat (k - 1)))%nat
    by lia.
  rewrite !s_pow_add; ring.
Qed.

(** *** The traces of the scaled matrix *)

Lemma shape0_scale (a : C) (rho : matrix C) :
  shape0 (scale_matrix a rho) = shape0 rho.
Proof.
  unfold shape0, scale_matrix, scale_rows; cbn [rows].
  rewrite length_map; reflexivity.
Qed.

Lemma is_square_scale (a : C) (rho : matrix C) :
  is_square (scale_matrix a rho) = is_square rho.
Proof.
  unfold is_square; rewrite shape0_scale.
  unfold scale_matrix, scale_rows; cbn [rows shape1]; f_equal.
  generalize (shape1 rho) as n; intros n.
  induction (rows rho) as [|row rest IH]; simpl; [reflexivity|].
  rewrite length_map, IH; reflexivity.
Qed.

Lemma nth_scaled_row (a : C) (row : list C) (j : nat) :
  nth j (map (s_mul a) row) (s_of_int 0) = s_mul a (nth j row (s_of_int 0)).
Proof.
  destruct (Nat.lt_ge_cases j (length row)) as [Hlt|Hge].
  - rewrite (nth_indep _ _ (s_mul a (s_of_int 0)))
      by (rewrite length_map; exact Hlt).
    apply map_nth.
  - rewrite !nth_overflow by (try rewrite length_map; exact Hge); ring.
Qed.

Lemma column_scale (b : C) (m : list (list C)) (j : nat) :
  column (scale_rows b m) j = map (s_mul b) (column m j).
Proof.
  unfold column, scale_rows; rewrite !map_map.
  apply map_ext; intros row; apply nth_scaled_row.
Qed.

Lemma dot_scale (a b : C) (u v : list C) :
  dot (map (s_mul a) u) (map (s_mul b) v) = s_mul (s_mul a b) (dot u v).
Proof.
  unfold dot; rewrite combine_map_both, map_map, !fold_left_map_fused.
  replace (s_of_int 0) with (s_mul (s_mul a b) (s_of_int 0)) at 1 by ring.
  apply (fold_left_scaled (fun p => s_mul (fst p) (snd p))
                          (fun p => s_mul (s_mul a (fst p)) (s_mul b (snd p)))).
  intros p _; ring.
Qed.

Lemma matmul_scale (a b : C) (m1 m2 : list (list C)) :
  matmul (scale_rows a m1) (scale_rows b m2)
  = scale_rows (s_mul a b) (matmul m1 m2).
Proof.
  unfold matmul.
  replace (length (hd [] (scale_rows b m2))) with (length (hd [] m2))
    by (destruct m2; simpl; [|rewrite length_map]; reflexivity).
  set (m2' := scale_rows b m2); unfold scale_rows; subst m2'.
  rewrite !map_map.
  apply map_ext; intros row; rewrite map_map.
  apply map_ext; intros j.
  rewrite column_scale; apply dot_scale.
Qed.

Lemma scale_matrix_ext (a b : C) (m : list (list C)) :
  a = b -> scale_rows a m = scale_rows b m.
Proof. intros ->; reflexivity. Qed.

Lemma matrix_pow_scale (a : C) (m : list (list C)) (k : nat) :
  matrix_pow (scale_rows a m) k = scale_rows (s_pow a (S k)) (matrix_pow m k).
Proof.
  induction k as [|k IH]; cbn [matrix_pow].
  - apply scale_matrix_ext; simpl; ring.
  - rewrite IH, matmul_scale.
    apply scale_matrix_ext; simpl; ring.
Qed.

Lemma diagonal_from_scale (a : C) (m : list (list C)) :
  forall i, diagonal_from i (scale_rows a m) = map (s_mul a) (diagonal_from i m).
Proof.
  induction m as [|row rest IH]; intros i; simpl; [reflexivity|].
  rewrite nth_error_map.
  destruct (nth_error row i); simpl; [|reflexivity].
  unfold scale_rows in IH; rewrite IH; reflexivity.
Qed.

Lemma trace_rows_scale (a : C) (m : list (list C)) :
  trace_rows (scale_rows a m) = s_mul a (trace_rows m).
Proof.
  unfold trace_rows; rewrite diagonal_from_scale.
  destruct (diagonal_from 0 m) as [|x xs]; simpl; [ring|].
  rewrite fold_left_map_fused.
  apply (fold_left_scaled (fun y => y) (fun y => s_mul a y)).
  reflexivity.
Qed.

End Scaling.

Section ScaledChain.

Context {C : Type} `{FieldLaws C} {M : Memory C}.

Add Ring scalar_ring_chain : scalar_ring_theory.

Lemma scale_from_map_py_range (first : nat) (a : C) (f : Z -> C) (lo hi : Z) :
  scale_from first a (map f (py_range lo hi))
  = map (fun k => s_mul (s_pow a (first + Z.to_nat (k - lo))) (f k))
        (py_range lo hi).
Proof.
  apply (nth_ext _ _ (s_of_int 0) (s_of_int 0)).
  - rewrite length_scale_from, !length_map; reflexivity.
  - intros i Hi; rewrite length_scale_from, length_map, py_range_length in Hi.
    rewrite nth_scale_from.
    assert (Hnth : forall g : Z -> C,
               nth i (map g (py_range lo hi)) (s_of_int 0) = g (lo + Z.of_nat i)).
    { intros g; apply nth_error_nth.
      rewrite nth_error_map, py_range_nth_error by exact Hi; reflexivity. }
    rewrite !Hnth; do 3 f_equal; lia.
Qed.

Lemma traces_of_scaled_matrix (a : C) (rho : matrix C) :
  get_traces (scale_matrix a rho)
  = (traces <- get_traces rho ;; Ok (scale_traces a traces)).
Proof.
  destruct (is_square rho) eqn:Hsq.
  - rewrite !get_traces_square by (rewrite ?is_square_scale; exact Hsq).
    cbn [bind]; f_equal.
    unfold scale_traces; rewrite scale_from_map_py_range, shape0_scale.
    apply map_ext; intros i.
    unfold np_trace, powered, scale_matrix; cbn [rows].
    rewrite matrix_pow_scale, trace_rows_scale.
    do 2 f_equal; lia.
  - destruct (Z.eq_dec (shape0 rho) 0) as [Hrows|Hrows].
    + rewrite !get_traces_no_rows by (rewrite ?shape0_scale; exact Hrows).
      reflexivity.
    + assert (Hpos : 0 < shape0 rho) by (unfold shape0 in *; lia).
      rewrite !get_traces_not_square
        by (rewrite ?is_square_scale, ?shape0_scale; assumption).
      reflexivity.
Qed.

Lemma coefs_of_scaled_traces (d : Z) (a : C) (vec : list C) :
  d <= Z.of_nat (length vec) ->
  compute_coefs d (scale_traces a vec)
  = (cs <- compute_coefs d vec ;; Ok (scale_coefs a cs)).
Proof.
  intros Hd.
  assert (Hlen : length (scale_traces a vec) = length vec)
    by apply length_scale_from.
  rewrite !compute_coefs_returns by (rewrite ?Hlen; exact Hd).
  cbn [bind]; f_equal.
  unfold scale_coefs; rewrite scale_from_cons, scale_from_map_py_range.
  f_equal; [simpl; ring|].
  apply map_ext_in; intros m Hm; apply py_range_In in Hm.
  rewrite coef_scaled by lia.
  do 2 f_equal; lia.
Qed.

Lemma poly_val_rev (l : list C) (y : C) :
  poly_val (rev l) y = fold_left (fun acc c => s_add c (s_mul y acc)) l (s_of_int 0).
Proof. unfold poly_val; apply fold_left_rev_right. Qed.

Lemma horner_scaled (a x : C) (l : list C) :
  forall j acc,
    fold_left (fun acc c => s_add c (s_mul (s_mul a x) acc))
              (scale_from (S j) a l) (s_mul (s_pow a j) acc)
    = s_mul (s_pow a (j + length l))
            (fold_left (fun acc c => s_add c (s_mul x acc)) l acc).
Proof.
  induction l as [|c l IH]; intros j acc.
  - simpl; rewrite Nat.add_0_r; reflexivity.
  - rewrite scale_from_cons; cbn [fold_left length].
    replace (j + S (length l))%nat with (S j + length l)%nat by lia.
    rewrite <- IH; f_equal; simpl; ring.
Qed.

Lemma poly_of_scaled_coefs (a x : C) (cs : list C) :
  poly_val (poly (scale_coefs a cs)) (s_mul a x)
  = s_mul (s_pow a (Nat.pred (length cs))) (poly_val (poly cs) x).
Proof.
  unfold poly, scale_coefs; rewrite !poly_val_rev.
  destruct cs as [|c l]; [simpl; ring|].
  rewrite scale_from_cons; cbn [fold_left length Nat.pred].
  rewrite <- (horner_scaled a x l 0); f_equal; simpl; ring.
Qed.

End ScaledChain.

(** In exact arithmetic the traces of the matrix [rho * a] are the traces of
    [rho] with trace [i] multiplied by [a^(i+1)]; [get_traces] fails on
    [rho * a] when it fails on [rho]. *)
Theorem get_traces_scaled {C : Type} `{FieldLaws C} (a : C) (rho : matrix C) :
  get_traces (scale_matrix a rho)
  = (traces <- get_traces rho ;; Ok (scale_traces a traces)).
Proof. apply traces_of_scaled_matrix. Qed.

Lemma get_traces_scaled_witness :
  get_traces (scale_matrix 100%R (Matrix [[1%R; 2%R]; [3%R; 4%R]] 2))
  = (traces <- get_traces (Matrix [[1%R; 2%R]; [3%R; 4%R]] 2) ;;
     Ok (scale_traces 100%R traces)).
Proof.
  exact (get_traces_scaled 100%R (Matrix [[1%R; 2%R]; [3%R; 4%R]] 2)).
Defined.

(** In exact arithmetic, for [d] no larger than the number of traces:
    multiplying trace [i] by [a^(i+1)] multiplies coefficient [m] by [a^m]. *)
Theorem compute_coefs_scaled {C : Type} `{FieldLaws C} {M : Memory C}
        (d : Z) (a : C) (vec : list C) :
  d <= Z.of_nat (length vec) ->
  compute_coefs d (scale_traces a vec)
  = (cs <- compute_coefs d vec ;; Ok (scale_coefs a cs)).
Proof. apply coefs_of_scaled_traces. Qed.

Lemma compute_coefs_scaled_witness :
  compute_coefs (M := holding 0%R) 2 (scale_traces 100%R [1%R; 3%R])
  = (cs <- compute_coefs (M := holding 0%R) 2 [1%R; 3%R] ;;
     Ok (scale_coefs 100%R cs)).
Proof.
  refine (compute_coefs_scaled 2 100%R [1%R; 3%R] _); simpl; lia.
Defined.

(** In exact arithmetic, for [d] no larger than the number of rows of [rho]:
    the cell [compute_coefs(d, get_traces(rho * a))] returns the coefficients
    for [rho] with coefficient [m] multiplied by [a^m], and fails in
    [get_traces] when the cell fails for [rho].  The polynomial of the scaled
    coefficients at [a * x] is [a^d] times the polynomial for [rho] at [x]:
    the roots are multiplied by [a]. *)
Theorem coefs_cell_scaled {C : Type} `{FieldLaws C} {M : Memory C}
        (d : Z) (a : C) (rho : matrix C) :
  (d <= shape0 rho ->
   coefs_cell d (scale_matrix a rho)
   = (cs <- coefs_cell d rho ;; Ok (scale_coefs a cs))) /\
  forall cs x,
    poly_val (poly (scale_coefs a cs)) (s_mul a x)
    = s_mul (s_pow a (Nat.pred (length cs))) (poly_val (poly cs) x).
Proof.
  split.
  - intros Hd; unfold coefs_cell; rewrite traces_of_scaled_matrix.
    destruct (get_traces rho) as [traces|e] eqn:Htraces; [|reflexivity].
    apply coefs_of_scaled_traces.
    rewrite (length_get_traces rho traces Htraces); exact Hd.
  - intros cs x; apply poly_of_scaled_coefs.
Qed.

Lemma coefs_cell_scaled_witness :
  coefs_cell (M := holding 0%R) 2
    (scale_matrix 100%R (Matrix [[1%R; 2%R]; [3%R; 4%R]] 2))
  = (cs <- coefs_cell (M := holding 0%R) 2 (Matrix [[1%R; 2%R]; [3%R; 4%R]] 2) ;;
     Ok (scale_coefs 100%R cs)) /\
  forall cs x,
    poly_val (poly (scale_coefs 100%R cs)) (100 * x)%R
    = (s_pow 100%R (Nat.pred (length cs)) * poly_val (poly cs) x)%R.
Proof.
  split.
  - refine (proj1 (coefs_cell_scaled 2 100%R
                     (Matrix [[1%R; 2%R]; [3%R; 4%R]] 2)) _).
    unfold shape0; simpl; lia.
  - exact (proj2 (coefs_cell_scaled (M := holding 0%R) 2 100%R
                    (Matrix [[1%R; 2%R]; [3%R; 4%R]] 2))).
Defined.

(** ** The complex numbers *)

#[export] Instance FieldLaws_Cx : FieldLaws Cx.
Proof.
  split; simpl.
  - intros [a b] [c d]; unfold Cx_add; simpl; f_equal; ring.
  - intros [a b] [c d] [e f]; unfold Cx_add; simpl; f_equal; ring.
  - intros [a b]; unfold Cx_add, Cx_of_int; simpl; f_equal; ring.
  - intros [a b]; unfold Cx_add, Cx_neg, Cx_of_int; simpl; f_equal; ring.
  - intros [a b] [c d]; unfold Cx_mul; simpl; f_equal; ring.
  - intros [a b] [c d] [e f]; unfold Cx_mul; simpl; f_equal; ring.
  - intros [a b]; unfold Cx_mul; simpl; f_equal; ring.
  - intros [a b] [c d] [e f]; unfold Cx_mul, Cx_add; simpl; f_equal; ring.
  - reflexivity.
  - intros a b; unfold Cx_add, Cx_of_int; simpl; rewrite plus_IZR; f_equal; ring.
  - intros [a b] [c d]; unfold Cx_div, Cx_mul; simpl; unfold Rdiv; f_equal; ring.
  - intros m Hm; unfold Cx_mul, Cx_div, Cx_of_int; simpl.
    apply (not_0_IZR m) in Hm; f_equal; field; nra.
Qed.

(** A product of complex numbers is 0 only when a factor is. *)
Lemma Cx_mul_integral (x y : Cx) :
  Cx_mul x y = Cx_of_int 0 -> x = Cx_of_int 0 \/ y = Cx_of_int 0.
Proof.
  destruct x as [a b], y as [c d]; unfold Cx_mul, Cx_of_int; simpl.
  intros Heq; injection Heq as Hre Him.
  destruct (Req_dec a 0) as [Ha|Ha], (Req_dec b 0) as [Hb|Hb];
    try (left; subst; reflexivity); right.
  - assert (Hc : c = 0%R) by (subst a; nra).
    assert (Hd : d = 0%R) by (subst a; nra).
    subst; reflexivity.
  - assert (Hc : c = 0%R) by (subst b; nra).
    assert (Hd : d = 0%R) by (subst b; nra).
    subst; reflexivity.
  - assert (Hn : (0 < a * a + b * b)%R) by nra.
    assert (Hc : ((a * a + b * b) * c = 0)%R) by nra.
    assert (Hd : ((a * a + b * b) * d = 0)%R) by nra.
    assert (c = 0%R) by nra.
    assert (d = 0%R) by nra.
    subst; reflexivity.
Qed.

Lemma Cx_difference_zero (x lam : Cx) :
  Cx_add x (Cx_neg lam) = Cx_of_int 0 <-> lam = x.
Proof.
  destruct x as [a b], lam as [c d]; unfold Cx_add, Cx_neg, Cx_of_int; simpl.
  split.
  - intros Heq; injection Heq as Hre Him; f_equal; lra.
  - intros Heq; injection Heq as -> ->; f_equal; lra.
Qed.

Lemma Cx_product_form_zero (lams : list Cx) (x : Cx) :
  product_form lams x = Cx_of_int 0 <-> In x lams.
Proof.
  induction lams as [|lam rest IH].
  - simpl; split; [|tauto].
    unfold Cx_of_int; intros Heq; injection Heq as Hre; lra.
  - change (product_form (lam :: rest) x)
      with (Cx_mul (Cx_add x (Cx_neg lam)) (product_form rest x)).
    cbn [In]; split.
    + intros Hprod; apply Cx_mul_integral in Hprod.
      destruct Hprod as [Hx|Hrest].
      * left; apply Cx_difference_zero; exact Hx.
      * right; apply IH; exact Hrest.
    + intros [Hx|Hrest].
      * apply Cx_difference_zero in Hx; rewrite Hx.
        unfold Cx_mul, Cx_of_int; simpl; f_equal; ring.
      * apply IH in Hrest; rewrite Hrest.
        unfold Cx_mul, Cx_of_int; simpl; f_equal; ring.
Qed.

(** Over the complex numbers, in exact arithmetic: for a diagonal matrix
    [get_traces] returns the power sums of the entries, and the polynomial
    [compute_coefs] builds from the power sums of any complex eigenvalues has
    these eigenvalues as its roots, and no other root. *)
Theorem complex_round_trip {M : Memory Cx} (lams : list Cx) :
  get_traces (diag lams) = Ok (eigen_traces lams) /\
  exists coefs,
    compute_coefs (Z.of_nat (length lams)) (eigen_traces lams) = Ok coefs /\
    forall x : Cx, is_root (poly coefs) x <-> In x lams.
Proof.
  split; [apply get_traces_diag|].
  exists (char_coefs lams); split; [apply compute_coefs_char_coefs|].
  intros x; unfold is_root; rewrite char_poly_product.
  apply Cx_product_form_zero.
Qed.

(** ** The trace and the signs *)

(** In exact arithmetic, for a square matrix with at least [d >= 1] rows the
    cell [compute_coefs(d, get_traces(rho))] returns a vector whose entry 1 is
    the opposite of the trace of [rho]. *)
Theorem coefs_cell_minus_trace {C : Type} `{FieldLaws C} {M : Memory C}
        (d : Z) (rho : matrix C) :
  is_square rho = true -> 1 <= d -> d <= shape0 rho ->
  exists cs, coefs_cell d rho = Ok cs /\
             nth_error cs 1 = Some (s_neg (np_trace rho)).
Proof.
  intros Hsq Hd Hrows; unfold coefs_cell.
  rewrite get_traces_square by exact Hsq; cbn [bind].
  rewrite py_range_cons by lia; cbn [map].
  change (np_trace (powered rho (Z.to_nat 0))) with (np_trace rho).
  eexists; split.
  - apply compute_coefs_returns.
    cbn [length]; rewrite length_map, py_range_length; lia.
  - rewrite <- (coef_one d (np_trace rho)
                  (map (fun i => np_trace (powered rho (Z.to_nat i)))
                       (py_range (0 + 1) (shape0 rho)))).
    apply (coefs_nth_error d _ 1); lia.
Qed.

Lemma coefs_cell_minus_trace_witness :
  exists cs,
    coefs_cell (M := holding 0%R) 2 (Matrix [[1%R; 2%R]; [3%R; 4%R]] 2) = Ok cs /\
    nth_error cs 1
    = Some (Ropp (np_trace (Matrix [[1%R; 2%R]; [3%R; 4%R]] 2))).
Proof.
  refine (coefs_cell_minus_trace 2 (Matrix [[1%R; 2%R]; [3%R; 4%R]] 2) _ _ _);
    [reflexivity | lia | unfold shape0; simpl; lia].
Defined.

(** The coefficients of the product of the [x - lam] alternate in sign when
    no [lam] is negative. *)
Lemma char_coef_alternates (lams : list R) :
  Forall (fun lam => (0 <= lam)%R) lams ->
  forall j,
    (Nat.even j = true -> (0 <= char_coef lams j)%R) /\
    (Nat.even j = false -> (char_coef lams j <= 0)%R).
Proof.
  induction 1 as [|lam rest Hlam _ IH]; intros j.
  - destruct j as [|j].
    + unfold char_coef; simpl; split; [intros _; lra | discriminate].
    + assert (Hzero : char_coef (@nil R) (S j) = 0%R)
        by (unfold char_coef; simpl; destruct j; reflexivity).
      rewrite Hzero; split; intros _; lra.
  - rewrite char_coef_cons; simpl s_add; simpl s_neg; simpl s_mul.
    destruct (IH j) as [Heven Hodd].
    destruct j as [|j]; [simpl; split; [intros _|discriminate]|].
    + specialize (Heven eq_refl); change (s_of_int 0) with 0%R; lra.
    + destruct (IH j) as [Heven' Hodd'].
      cbn [prev]; rewrite Nat.even_succ, <- Nat.negb_even in *.
      destruct (Nat.even j); simpl in *; split; intros Hj;
        try discriminate;
        try specialize (Heven eq_refl); try specialize (Hodd eq_refl);
        try specialize (Heven' eq_refl); try specialize (Hodd' eq_refl);
        nra.
Qed.

(** In exact arithmetic over the real numbers, for eigenvalues that are not
    negative, as those of a density matrix, the coefficients [compute_coefs]
    returns from their power sums alternate in sign: those of even index are
    not negative, those of odd index not positive. *)
Theorem coefficients_alternate {M : Memory R} (lams : list R) :
  Forall (fun lam => (0 <= lam)%R) lams ->
  exists cs,
    compute_coefs (Z.of_nat (length lams)) (eigen_traces lams) = Ok cs /\
    forall j c, nth_error cs j = Some c ->
      (Nat.even j = true -> (0 <= c)%R) /\
      (Nat.even j = false -> (c <= 0)%R).
Proof.
  intros Hpos; exists (char_coefs lams); split.
  - apply compute_coefs_char_coefs.
  - intros j c Hnth.
    rewrite <- (nth_error_nth _ _ (s_of_int 0) Hnth).
    apply (char_coef_alternates lams Hpos j).
Qed.

Lemma coefficients_alternate_witness :
  exists cs,
    compute_coefs (M := holding 0%R) 2 (eigen_traces [0.25%R; 0.75%R]) = Ok cs /\
    forall j c, nth_error cs j = Some c ->
      (Nat.even j = true -> (0 <= c)%R) /\
      (Nat.even j = false -> (c <= 0)%R).
Proof.
  refine (coefficients_alternate [0.25%R; 0.75%R] _).
  repeat (apply Forall_cons; [lra|]); apply Forall_nil.
Defined.
